(** * The request pipeline of [src/design-pattern/strategy.ts]

    A shallow embedding of the middleware chain ([LoggingMiddleware],
    [RateLimitingMiddleware], [AuthenticationMiddleware],
    [ValidationMiddleware], [AuthorizationMiddleware]), of the executor
    [MiddlewarePipeline] and of the dispatcher [HTTPServer], followed by the
    properties proved about them.

    Conventions of the model
    - A JavaScript number is an integer that a double holds exactly ([Z]);
      a string is given by its UTF-8 encoding.
    - The property [user] of a request is absent or an identity as
      [verifyToken] returns it.
    - [console.log] appends one line to [console]; the pictograph that opens
      each message in the source is left out of the text.
    - [Date.now()] reads the next value of an oracle [clock].
    - An [async] function is run to completion at each [await]: one request
      is processed at a time. *)

From stdpp Require Import base gmap strings list pretty sorting.
From Stdlib Require Import ZArith Lia Ascii.

Local Open Scope string_scope.
Local Open Scope list_scope.
Local Open Scope nat_scope.
Set Warnings "-register-all".

(** ** JavaScript values (the type [any] of [body]) *)

(** A string holds the UTF-8 encoding of the JavaScript string. A number
    is an integer that a double holds exactly. [JFunction name arity] is a
    built-in function, which a value inherits from its prototype. *)
Inductive JsValue : Type :=
| JUndefined
| JNull
| JBool (b : bool)
| JNumber (n : Z)
| JString (s : string)
| JArray (xs : list JsValue)
| JObject (fields : list (string * JsValue))
| JFunction (name : string) (arity : Z).

Fixpoint assoc {A : Type} (k : string) (l : list (string * A)) : option A :=
  match l with
  | [] => None
  | (k', v) :: l' => if String.eqb k k' then Some v else assoc k l'
  end.

(** *** Strings as sequences of UTF-16 code units *)

(** The code units that start at a byte: none at a continuation byte, two
    (a surrogate pair) at the first byte of a sequence of four. *)
Definition code_units (c : Ascii.ascii) : nat :=
  let n := Ascii.nat_of_ascii c in
  if n <? 128 then 1 else if n <? 192 then 0 else if n <? 240 then 1 else 2.

(** [s.length] *)
Definition js_length (s : string) : nat :=
  foldr (fun c n => code_units c + n) 0 (String.list_ascii_of_string s).

Fixpoint continuation_bytes (l : list Ascii.ascii) : list Ascii.ascii :=
  match l with
  | c :: l' => if code_units c =? 0 then c :: continuation_bytes l' else []
  | [] => []
  end.

(** [s[i]], the bytes of the character that is the code unit [i]. Half of
    a surrogate pair has no encoding: it is rendered U+FFFD, a string of
    one code unit as well, which is neither white space, nor a digit, nor
    [@]. *)
Fixpoint code_unit_at (i : nat) (l : list Ascii.ascii) : option (list Ascii.ascii) :=
  match l with
  | [] => None
  | c :: l' =>
      match code_units c, i with
      | 0, _ => code_unit_at i l'
      | 1, 0 => Some (c :: continuation_bytes l')
      | 1, S i' => code_unit_at i' l'
      | _, S (S i') => code_unit_at i' l'
      | _, _ => Some ["239"; "191"; "189"]%char
      end
  end.

(** The white space of [\s], which is also what [Number] trims from a
    string: the characters below 128, *)
Definition is_space (c : Ascii.ascii) : bool :=
  let n := Ascii.nat_of_ascii c in
  (n =? 32)%nat || ((9 <=? n)%nat && (n <=? 13)%nat).

(** then U+00A0, and U+1680, U+2000 to U+200A, U+2028, U+2029, U+202F,
    U+205F, U+3000 and U+FEFF, by the bytes that encode them. *)
Definition wide_space2 (c1 c2 : Ascii.ascii) : bool :=
  (Ascii.nat_of_ascii c1 =? 194) && (Ascii.nat_of_ascii c2 =? 160).

Definition wide_space3 (c1 c2 c3 : Ascii.ascii) : bool :=
  let n1 := Ascii.nat_of_ascii c1 in
  let n2 := Ascii.nat_of_ascii c2 in
  let n3 := Ascii.nat_of_ascii c3 in
  (n1 =? 225) && (n2 =? 154) && (n3 =? 128)
  || (n1 =? 226) && (n2 =? 128)
     && ((128 <=? n3) && (n3 <=? 138) || (n3 =? 168) || (n3 =? 169) || (n3 =? 175))
  || (n1 =? 226) && (n2 =? 129) && (n3 =? 159)
  || (n1 =? 227) && (n2 =? 128) && (n3 =? 128)
  || (n1 =? 239) && (n2 =? 187) && (n3 =? 191).

(** A white space above 127 occurs in the string. *)
Fixpoint has_wide_space (l : list Ascii.ascii) : bool :=
  match l with
  | c1 :: l1 =>
      match l1 with
      | c2 :: l2 =>
          wide_space2 c1 c2
          || match l2 with
             | c3 :: _ => wide_space3 c1 c2 c3
             | [] => false
             end
      | [] => false
      end
      || has_wide_space l1
  | [] => false
  end.

(** The string without the white space that opens it. *)
Fixpoint skip_space (l : list Ascii.ascii) : list Ascii.ascii :=
  match l with
  | c1 :: l1 =>
      if is_space c1 then skip_space l1
      else
        match l1 with
        | c2 :: l2 =>
            if wide_space2 c1 c2 then skip_space l2
            else
              match l2 with
              | c3 :: l3 => if wide_space3 c1 c2 c3 then skip_space l3 else l
              | [] => l
              end
        | [] => l
        end
  | [] => []
  end.

(** The string without the white space that ends it. *)
Fixpoint drop_end_space (l : list Ascii.ascii) : list Ascii.ascii :=
  match l with
  | c :: l' =>
      match skip_space l with
      | [] => []
      | _ => c :: drop_end_space l'
      end
  | [] => []
  end.

(** *** Properties and conversions *)

(** What every value inherits from [Object.prototype], with the number
    of parameters of each function. *)
Definition object_prototype : list (string * Z) :=
  [ ("hasOwnProperty", 1); ("isPrototypeOf", 1); ("propertyIsEnumerable", 1);
    ("toLocaleString", 0); ("toString", 0); ("valueOf", 0);
    ("__defineGetter__", 2); ("__defineSetter__", 2);
    ("__lookupGetter__", 1); ("__lookupSetter__", 1) ]%Z.

(** The property [k] that a value inherits, [kind] being the name of its
    constructor. The prototypes of strings, numbers and booleans redefine
    [toString] and [valueOf]; of these functions only
    [Number.prototype.toString] has another number of parameters. *)
Definition inherited (kind k : string) : JsValue :=
  if String.eqb k "constructor" then JFunction kind 1
  else if String.eqb kind "Number" && String.eqb k "toString" then JFunction k 1
  else
    match assoc k object_prototype with
    | Some arity => JFunction k arity
    | None => JUndefined
    end.

Definition is_digit (c : Ascii.ascii) : bool :=
  let n := Ascii.nat_of_ascii c in (48 <=? n)%nat && (n <=? 57)%nat.

Fixpoint decimal (acc : Z) (l : list Ascii.ascii) : option Z :=
  match l with
  | [] => Some acc
  | c :: l' =>
      if is_digit c
      then decimal (10 * acc + Z.of_nat (Ascii.nat_of_ascii c - 48))%Z l'
      else None
  end.

(** The index that a property name denotes in an array or in a string:
    decimal digits, without a leading zero. *)
Definition array_index (k : string) : option nat :=
  match String.list_ascii_of_string k with
  | [] => None
  | "0"%char :: _ :: _ => None
  | ds => Z.to_nat <$> decimal 0 ds
  end.

(** [v[k]] for a value that is neither [undefined] nor [null]: own
    properties, elements, [length], and what [Object.prototype] hands down.
    The further methods of [Array.prototype], [String.prototype],
    [Number.prototype], [Boolean.prototype] and [Function.prototype], whose
    list varies with the version of the language, are not modelled, nor is
    [__proto__] on a value that is neither an object nor an array. *)
Definition js_get (v : JsValue) (k : string) : JsValue :=
  match v with
  | JObject fields =>
      match assoc k fields with
      | Some x => x
      | None => if String.eqb k "__proto__" then JObject [] else inherited "Object" k
      end
  | JArray xs =>
      if String.eqb k "length" then JNumber (Z.of_nat (length xs))
      else
        match array_index k ≫= (fun i => xs !! i) with
        | Some x => x
        | None => if String.eqb k "__proto__" then JArray [] else inherited "Array" k
        end
  | JString s =>
      if String.eqb k "length" then JNumber (Z.of_nat (js_length s))
      else
        match array_index k ≫= (fun i => code_unit_at i (String.list_ascii_of_string s)) with
        | Some x => JString (String.string_of_list_ascii x)
        | None => inherited "String" k
        end
  | JNumber _ => inherited "Number" k
  | JBool _ => inherited "Boolean" k
  | JFunction name arity =>
      if String.eqb k "length" then JNumber arity
      else if String.eqb k "name" then JString name
      else inherited "Function" k
  | JUndefined | JNull => JUndefined
  end.

(** [v?.[k]] *)
Definition js_get_opt (v : JsValue) (k : string) : JsValue :=
  match v with
  | JUndefined | JNull => JUndefined
  | _ => js_get v k
  end.

Definition js_typeof (v : JsValue) : string :=
  match v with
  | JUndefined => "undefined"
  | JNull => "object"
  | JBool _ => "boolean"
  | JNumber _ => "number"
  | JString _ => "string"
  | JArray _ => "object"
  | JObject _ => "object"
  | JFunction _ _ => "function"
  end.

(** [String(v)], as [RegExp.prototype.test] applies it to its argument. An
    object is converted by the [toString] that it inherits: one that holds
    a property [toString] or [valueOf] of its own is outside the model. *)
Fixpoint js_to_string (v : JsValue) : string :=
  match v with
  | JUndefined => "undefined"
  | JNull => "null"
  | JBool true => "true"
  | JBool false => "false"
  | JNumber n => pretty n
  | JString s => s
  | JArray xs =>
      String.concat ","
        (map (fun x => match x with
                       | JUndefined | JNull => ""
                       | _ => js_to_string x
                       end) xs)
  | JObject _ => "[object Object]"
  | JFunction name _ => "function " +:+ name +:+ "() { [native code] }"
  end.

(** The result of [Number(v)]: [Decimal m e] is [m * 10 ^ e], the value
    that a literal denotes before it is rounded to a double. *)
Inductive JsNumber : Type :=
| NaN
| Infinity (negative : bool)
| Decimal (mantissa exponent : Z).

Definition digit_value (c : Ascii.ascii) : option Z :=
  let n := Ascii.nat_of_ascii c in
  if (48 <=? n) && (n <=? 57) then Some (Z.of_nat (n - 48))
  else if (97 <=? n) && (n <=? 102) then Some (Z.of_nat (n - 87))
  else if (65 <=? n) && (n <=? 70) then Some (Z.of_nat (n - 55))
  else None.

(** The digits in [base] that open the string: their value after [acc],
    how many they are, and what follows them. *)
Fixpoint digits (base acc : Z) (count : nat) (l : list Ascii.ascii)
  : Z * nat * list Ascii.ascii :=
  match l with
  | c :: l' =>
      match digit_value c with
      | Some d =>
          if (d <? base)%Z then digits base (base * acc + d)%Z (S count) l'
          else (acc, count, l)
      | None => (acc, count, l)
      end
  | [] => (acc, count, [])
  end.

(** [ExponentPart], optional, up to the end of the string. *)
Definition exponent_part (l : list Ascii.ascii) : option Z :=
  match l with
  | [] => Some 0%Z
  | c :: l1 =>
      if Ascii.eqb c "e" || Ascii.eqb c "E"
      then
        let '(negative, l2) :=
          match l1 with
          | "-"%char :: l2 => (true, l2)
          | "+"%char :: l2 => (false, l2)
          | _ => (false, l1)
          end in
        match digits 10 0 0 l2 with
        | (x, S _, []) => Some (if negative then - x else x)%Z
        | _ => None
        end
      else None
  end.

(** [StrUnsignedDecimalLiteral] *)
Definition unsigned_decimal (l : list Ascii.ascii) : JsNumber :=
  if String.eqb (String.string_of_list_ascii l) "Infinity" then Infinity false
  else
    let '(whole, n1, l1) := digits 10 0 0 l in
    let '(mantissa, n2, l2) :=
      match l1 with
      | "."%char :: l2 => digits 10 whole 0 l2
      | _ => (whole, 0, l1)
      end in
    if n1 + n2 =? 0 then NaN
    else
      match exponent_part l2 with
      | Some x => Decimal mantissa (x - Z.of_nat n2)
      | None => NaN
      end.

(** [0x], [0o] and [0b] literals *)
Definition radix_literal (base : Z) (l : list Ascii.ascii) : JsNumber :=
  match digits base 0 0 l with
  | (x, S _, []) => Decimal x 0
  | _ => NaN
  end.

Definition negated (x : JsNumber) : JsNumber :=
  match x with
  | NaN => NaN
  | Infinity negative => Infinity (negb negative)
  | Decimal m e => Decimal (- m) e
  end.

(** [StringToNumber]: [StringNumericLiteral] between white space. *)
Definition string_to_number (s : string) : JsNumber :=
  match drop_end_space (skip_space (String.list_ascii_of_string s)) with
  | [] => Decimal 0 0
  | "+"%char :: l => unsigned_decimal l
  | "-"%char :: l => negated (unsigned_decimal l)
  | "0"%char :: ((c :: l) as l1) =>
      if Ascii.eqb c "x" || Ascii.eqb c "X" then radix_literal 16 l
      else if Ascii.eqb c "o" || Ascii.eqb c "O" then radix_literal 8 l
      else if Ascii.eqb c "b" || Ascii.eqb c "B" then radix_literal 2 l
      else unsigned_decimal ("0"%char :: l1)
  | l => unsigned_decimal l
  end.

(** [Number(v)]; an array, an object or a function is first converted to
    a string. *)
Definition js_to_number (v : JsValue) : JsNumber :=
  match v with
  | JUndefined => NaN
  | JNull => Decimal 0 0
  | JBool b => Decimal (if b then 1 else 0) 0
  | JNumber n => Decimal n 0
  | JString s => string_to_number s
  | JArray _ | JObject _ | JFunction _ _ => string_to_number (js_to_string v)
  end.

(** [v < n] for an integer [n]. A literal is compared by the value that it
    denotes: the rounding of a literal of more digits than a double holds
    is not modelled. *)
Definition js_lt (v : JsValue) (n : Z) : bool :=
  match js_to_number v with
  | NaN => false
  | Infinity negative => negative
  | Decimal m e =>
      if (0 <=? e)%Z then (m * 10 ^ e <? n)%Z else (m <? n * 10 ^ (- e))%Z
  end.

(** ** Requests, responses, identities *)

Module Identity.
Record t : Type := make { id : string; email : string; role : string }.
End Identity.

(** The properties of a request object that no handler assigns. The
    property [user], which [AuthenticationMiddleware] assigns, is the cell
    [World.user] below: every handler of one execution holds the same
    object. The source types it [any]; the model holds what
    [verifyToken] returns, three strings, so that a request which arrives
    with a [user] of another shape is outside the model. *)
Module Request.
Record t : Type := make {
  id : string;
  method : string;
  path : string;
  headers : gmap string string;
  body : JsValue;
  metadata : option (list (string * JsValue))
}.
End Request.

Module Response.
Record t : Type := make {
  status : Z;
  body : JsValue;
  headers : option (gmap string string)
}.
End Response.

Record Error : Type := { message : string }.

(** How a call ends: with a value, or with a thrown error. *)
Inductive Outcome (A : Type) : Type :=
| Ok (a : A)
| Thrown (e : Error).
Arguments Ok {A} a.
Arguments Thrown {A} e.

(** ** The store *)

Module World.
Record t : Type := make {
  clock : nat → Z;                  (* the successive values of Date.now() *)
  ticks : nat;                      (* how many have been read *)
  requests : gmap string (list Z);  (* RateLimitingMiddleware.requests *)
  user : option Identity.t;         (* request.user *)
  console : list string
}.
End World.

(** ** Handler code: a monad of store accesses, throws and calls of [next] *)

Inductive Prog (A : Type) : Type :=
| Ret (a : A)
| Throw (e : Error)
| GetW (k : World.t → Prog A)
| PutW (w : World.t) (k : Prog A)
| Next (k : Outcome Response.t → Prog A).
Arguments Ret {A} a.
Arguments Throw {A} e.
Arguments GetW {A} k.
Arguments PutW {A} w k.
Arguments Next {A} k.

Fixpoint bind {A B : Type} (p : Prog A) (f : A → Prog B) : Prog B :=
  match p with
  | Ret a => f a
  | Throw e => Throw e
  | GetW k => GetW (fun w => bind (k w) f)
  | PutW w k => PutW w (bind k f)
  | Next k => Next (fun o => bind (k o) f)
  end.

#[global] Instance Prog_ret : MRet Prog := @Ret.
#[global] Instance Prog_bind : MBind Prog := fun A B f p => bind p f.

(** [try { p } catch (error) { h error }] *)
Fixpoint try_catch {A : Type} (p : Prog A) (h : Error → Prog A) : Prog A :=
  match p with
  | Ret a => Ret a
  | Throw e => h e
  | GetW k => GetW (fun w => try_catch (k w) h)
  | PutW w k => PutW w (try_catch k h)
  | Next k => Next (fun o => try_catch (k o) h)
  end.

(** [await next()] *)
Definition await_next : Prog Response.t :=
  Next (fun o => match o with Ok r => Ret r | Thrown e => Throw e end).

Definition modify (f : World.t → World.t) : Prog unit :=
  GetW (fun w => PutW (f w) (Ret tt)).

Definition print (line : string) (w : World.t) : World.t :=
  World.make (World.clock w) (World.ticks w) (World.requests w)
    (World.user w) (World.console w ++ [line]).

Definition console_log (line : string) : Prog unit := modify (print line).

Definition Date_now : Prog Z :=
  GetW (fun w =>
    PutW (World.make (World.clock w) (S (World.ticks w)) (World.requests w)
            (World.user w) (World.console w))
         (Ret (World.clock w (World.ticks w)))).

Definition get_user : Prog (option Identity.t) :=
  GetW (fun w => Ret (World.user w)).

Definition set_user (u : Identity.t) : Prog unit :=
  modify (fun w => World.make (World.clock w) (World.ticks w) (World.requests w)
                     (Some u) (World.console w)).

Definition get_requests : Prog (gmap string (list Z)) :=
  GetW (fun w => Ret (World.requests w)).

Definition set_requests (m : gmap string (list Z)) : Prog unit :=
  modify (fun w => World.make (World.clock w) (World.ticks w) m
                     (World.user w) (World.console w)).

(** [interface Middleware] *)
Record Middleware : Type := MkMiddleware { execute : Request.t → Prog Response.t }.

(** ** [class LoggingMiddleware] *)

Module LoggingMiddleware.

Definition execute (request : Request.t) : Prog Response.t :=
  startTime ← Date_now;
  console_log ("[" +:+ Request.id request +:+ "] " +:+ Request.method request
               +:+ " " +:+ Request.path request +:+ " - Started");;
  try_catch
    (response ← await_next;
     now ← Date_now;
     let duration := (now - startTime)%Z in
     console_log ("[" +:+ Request.id request +:+ "] "
                  +:+ pretty (Response.status response)
                  +:+ " - Completed in " +:+ pretty duration +:+ "ms");;
     mret response)
    (fun error =>
       now ← Date_now;
       let duration := (now - startTime)%Z in
       console_log ("[" +:+ Request.id request +:+ "] Error after "
                    +:+ pretty duration +:+ "ms: " +:+ message error);;
       Throw error).

Definition new : Middleware := MkMiddleware execute.

End LoggingMiddleware.

(** ** [class AuthenticationMiddleware] *)

Module AuthenticationMiddleware.

Definition verifyToken (token : string) : Prog Identity.t :=
  if String.eqb token "valid-token"
  then mret (Identity.make "user123" "user@example.com" "user")
  else if String.eqb token "admin-token"
  then mret (Identity.make "admin123" "admin@example.com" "admin")
  else Throw {| message := "Invalid token" |}.

(** [!authHeader || !authHeader.startsWith('Bearer ')]: an absent header
    is [undefined], and the empty string is falsy as well. *)
Definition rejects_header (authHeader : option string) : bool :=
  match authHeader with
  | None => true
  | Some h => String.eqb h "" || negb (String.prefix "Bearer " h)
  end.

Definition execute (request : Request.t) : Prog Response.t :=
  console_log ("[" +:+ Request.id request +:+ "] Authenticating request...");;
  let authHeader := Request.headers request !! "authorization" in
  if rejects_header authHeader
  then mret (Response.make 401
               (JObject [("error", JString "Missing or invalid authorization header")])
               None)
  else
    let h := default "" authHeader in
    let token := String.substring 7 (String.length h - 7) h in
    try_catch
      (user ← verifyToken token;
       set_user user;;
       console_log ("[" +:+ Request.id request +:+ "] Authenticated as "
                    +:+ Identity.email user);;
       await_next)
      (fun error =>
         mret (Response.make 401 (JObject [("error", JString "Invalid token")]) None)).

Definition new : Middleware := MkMiddleware execute.

End AuthenticationMiddleware.

(** ** [class RateLimitingMiddleware] *)

Module RateLimitingMiddleware.

Definition windowMs : Z := 60 * 1000.
Definition maxRequests : nat := 10.

(** [a || b] on strings that may be [undefined]. *)
Definition js_or (a b : option string) : option string :=
  match a with
  | Some s => if String.eqb s "" then b else Some s
  | None => b
  end.

Definition getClientId (request : Request.t) : Prog string :=
  user ← get_user;
  mret (default "unknown"
          (js_or (js_or (Identity.id <$> user)
                        (Request.headers request !! "x-forwarded-for"))
                 (Some "unknown"))).

Definition isRateLimited (clientId : string) : Prog bool :=
  now ← Date_now;
  stored ← get_requests;
  let requests := default [] (stored !! clientId) in
  let validRequests := filter (fun time => (now - time < windowMs)%Z) requests in
  set_requests (<[clientId := validRequests]> stored);;
  mret (bool_decide (maxRequests ≤ length validRequests)%nat).

Definition recordRequest (clientId : string) : Prog unit :=
  stored ← get_requests;
  let requests := default [] (stored !! clientId) in
  now ← Date_now;
  set_requests (<[clientId := (requests ++ [now])%list]> stored).

Definition execute (request : Request.t) : Prog Response.t :=
  clientId ← getClientId request;
  console_log ("[" +:+ Request.id request +:+ "] Checking rate limit for "
               +:+ clientId +:+ "...");;
  limited ← isRateLimited clientId;
  if limited : bool
  then
    console_log ("[" +:+ Request.id request +:+ "] Rate limit exceeded for "
                 +:+ clientId);;
    mret (Response.make 429 (JObject [("error", JString "Rate limit exceeded")])
            (Some {["Retry-After" := "60"]}))
  else
    recordRequest clientId;;
    console_log ("[" +:+ Request.id request +:+ "] Rate limit passed");;
    await_next.

Definition new : Middleware := MkMiddleware execute.

End RateLimitingMiddleware.

(** ** [class ValidationMiddleware] *)

Module Rules.
(** One entry of a schema body, such as
    [{ required: true, type: 'string', minLength: 2 }]; a rule that is not
    written is [None]. *)
Record t : Type := make {
  required : bool;
  type : string;
  minLength : option Z;
  min : option Z
}.
End Rules.

Module Schema.
(** [{ body: { field: rules, ... } }], the fields in the order in which
    [Object.entries] lists them. *)
Record t : Type := make { body : option (list (string * Rules.t)) }.
End Schema.

(** [[^\s@]], for one byte: the white space above 127 is looked for in
    the string as a whole. *)
Definition is_plain (c : Ascii.ascii) : bool :=
  negb (is_space c) && negb (Ascii.eqb c "@").

Fixpoint split_at_sign (l : list Ascii.ascii)
  : option (list Ascii.ascii * list Ascii.ascii) :=
  match l with
  | [] => None
  | c :: l' =>
      if Ascii.eqb c "@" then Some ([], l')
      else match split_at_sign l' with
           | Some (a, b) => Some (c :: a, b)
           | None => None
           end
  end.

(** A number is truthy unless it is [0]; a rule that is absent is
    [undefined]. *)
Definition truthy_number (n : option Z) : option Z :=
  match n with
  | Some k => if (k =? 0)%Z then None else Some k
  | None => None
  end.

Definition is_nullish (v : JsValue) : bool :=
  match v with
  | JUndefined | JNull => true
  | _ => false
  end.

Module ValidationMiddleware.

(** [/^[^\s@]+@[^\s@]+\.[^\s@]+$/.test(email)]: plain characters, one
    [@] after at least one of them, and in what follows a dot that is
    neither first nor last. *)
Definition isValidEmail (email : JsValue) : bool :=
  let text := String.list_ascii_of_string (js_to_string email) in
  match split_at_sign text with
  | Some (localPart, domain) =>
      negb (bool_decide (localPart = []))
      && forallb is_plain localPart
      && forallb is_plain domain
      && match domain with
         | [] => false
         | _ :: rest => existsb (fun c => Ascii.eqb c ".") (removelast rest)
         end
      && negb (has_wide_space text)
  | None => false
  end.

Definition validateField (field : string) (value : JsValue) (rules : Rules.t)
  : list string :=
  let errors : list string := [] in
  if Rules.required rules && is_nullish value
  then (errors ++ [field +:+ " is required"])%list
  else
    if negb (is_nullish value)
    then
      let errors :=
        if String.eqb (Rules.type rules) "email" && negb (isValidEmail value)
        then (errors ++ [field +:+ " must be a valid email"])%list else errors in
      let errors :=
        if String.eqb (Rules.type rules) "string"
           && negb (String.eqb (js_typeof value) "string")
        then (errors ++ [field +:+ " must be a string"])%list else errors in
      let errors :=
        if String.eqb (Rules.type rules) "number"
           && negb (String.eqb (js_typeof value) "number")
        then (errors ++ [field +:+ " must be a number"])%list else errors in
      let errors :=
        match truthy_number (Rules.minLength rules) with
        | Some minLength =>
            if js_lt (js_get value "length") minLength
            then (errors ++ [field +:+ " must be at least " +:+ pretty minLength
                             +:+ " characters"])%list
            else errors
        | None => errors
        end in
      let errors :=
        match truthy_number (Rules.min rules) with
        | Some min =>
            if js_lt value min
            then (errors ++ [field +:+ " must be at least " +:+ pretty min])%list
            else errors
        | None => errors
        end in
      errors
    else errors.

(** The [for ... of Object.entries(schema.body)] loop, [errors] being the
    array that every turn extends. *)
Definition validateRequest (request : Request.t) (schema : Schema.t)
  : list string :=
  match Schema.body schema with
  | Some entries =>
      fold_left
        (fun errors '(field, rules) =>
           let value := js_get_opt (Request.body request) field in
           let fieldErrors := validateField field value rules in
           (errors ++ fieldErrors)%list)
        entries []
  | None => []
  end.

(** The registry that the constructor fills. *)
Definition schemas : gmap string Schema.t :=
  <["PUT:/users/:id" :=
      Schema.make (Some [
        ("name", Rules.make false "string" (Some 2%Z) None);
        ("age", Rules.make false "number" None (Some 18%Z)) ])]>
  (<["POST:/users" :=
      Schema.make (Some [
        ("email", Rules.make true "email" None None);
        ("name", Rules.make true "string" (Some 2%Z) None);
        ("age", Rules.make false "number" None (Some 18%Z)) ])]> ∅).

Definition execute (schemas : gmap string Schema.t) (request : Request.t)
  : Prog Response.t :=
  console_log ("[" +:+ Request.id request +:+ "] Validating request...");;
  let schemaKey := Request.method request +:+ ":" +:+ Request.path request in
  match schemas !! schemaKey with
  | None =>
      console_log ("[" +:+ Request.id request
                   +:+ "] No validation schema found for " +:+ schemaKey);;
      await_next
  | Some schema =>
      let validationErrors := validateRequest request schema in
      if (0 <? length validationErrors)%nat
      then
        console_log ("[" +:+ Request.id request +:+ "] Validation failed: "
                     +:+ String.concat "," validationErrors);;
        mret (Response.make 400
                (JObject [("error", JString "Validation failed");
                          ("details", JArray (JString <$> validationErrors))])
                None)
      else
        console_log ("[" +:+ Request.id request +:+ "] Validation passed");;
        await_next
  end.

Definition new : Middleware := MkMiddleware (execute schemas).

End ValidationMiddleware.

(** ** [class AuthorizationMiddleware] *)

Module AuthorizationMiddleware.

(** The registry that the constructor fills. *)
Definition permissions : gmap string (list string) :=
  <["GET:/users/:id" := ["user"; "admin"]]>
  (<["POST:/users" := ["user"; "admin"]]>
  (<["GET:/admin/users" := ["admin"]]>
  (<["DELETE:/users/:id" := ["admin"]]> ∅))).

Definition execute (permissions : gmap string (list string))
    (request : Request.t) : Prog Response.t :=
  console_log ("[" +:+ Request.id request +:+ "] Checking authorization...");;
  let requiredRoles :=
    permissions !! (Request.method request +:+ ":" +:+ Request.path request) in
  match requiredRoles with
  | None =>
      console_log ("[" +:+ Request.id request +:+ "] No authorization required");;
      await_next
  | Some requiredRoles =>
      user ← get_user;
      match user with
      | None =>
          mret (Response.make 401
                  (JObject [("error", JString "Authentication required")]) None)
      | Some user =>
          if negb (bool_decide (Identity.role user ∈ requiredRoles))
          then
            console_log ("[" +:+ Request.id request
                         +:+ "] Insufficient permissions");;
            mret (Response.make 403
                    (JObject [("error", JString "Insufficient permissions")]) None)
          else
            console_log ("[" +:+ Request.id request +:+ "] Authorization passed");;
            await_next
      end
  end.

Definition new : Middleware := MkMiddleware (execute permissions).

End AuthorizationMiddleware.

(** ** [class MiddlewarePipeline] *)

(** What an execution records of its calls, for the statements below; no
    handler can read it.
    - [Invoke i]: [next] calls [execute] of the handler registered at [i];
    - [Delegate i]: the handler registered at [i] calls its continuation;
    - [Terminal]: [next] calls the route handler. *)
Inductive Call : Type :=
| Invoke (i : nat)
| Delegate (i : nat)
| Terminal.

#[global] Instance Call_eq_dec : EqDecision Call.
Proof. solve_decision. Defined.

(** The state of one [MiddlewarePipeline.execute]: the store, the local
    variable [index] that the closure [next] captures, and the record of
    calls. *)
Module PState.
Record t : Type := make { world : World.t; index : nat; calls : list Call }.
End PState.

(** A route handler, [() => Promise<Response>]. *)
Definition Handler : Type := World.t → Outcome Response.t * World.t.

(** A continuation; [None] only when the fuel of [MiddlewarePipeline.next]
    is spent, which [MiddlewarePipeline.execute] excludes (see
    [execute_total]). *)
Definition Continuation : Type :=
  PState.t → option (Outcome Response.t * PState.t).

(** Runs the code [p] of the handler registered at [i], [next] being the
    continuation it was given. *)
Fixpoint exec {A : Type} (i : nat) (p : Prog A) (next : Continuation)
    (s : PState.t) : option (Outcome A * PState.t) :=
  match p with
  | Ret a => Some (Ok a, s)
  | Throw e => Some (Thrown e, s)
  | GetW k => exec i (k (PState.world s)) next s
  | PutW w k => exec i k next (PState.make w (PState.index s) (PState.calls s))
  | Next k =>
      match next (PState.make (PState.world s) (PState.index s)
                    (PState.calls s ++ [Delegate i])) with
      | Some (o, s') => exec i (k o) next s'
      | None => None
      end
  end.

Module MiddlewarePipeline.

(** [use(middleware)]: [this.middlewares.push(middleware)] *)
Definition use (middleware : Middleware) (middlewares : list Middleware)
  : list Middleware :=
  middlewares ++ [middleware].

(** The closure [next] of [execute]. [middlewares !! index] is [None]
    exactly when [index >= this.middlewares.length]. The recursion runs
    through the handlers' calls of their continuation, hence the fuel. *)
Fixpoint next (middlewares : list Middleware) (request : Request.t)
    (handler : Handler) (fuel : nat) (s : PState.t)
  : option (Outcome Response.t * PState.t) :=
  match fuel with
  | O => None
  | S fuel' =>
      match middlewares !! PState.index s with
      | None =>
          let '(o, w) := handler (PState.world s) in
          Some (o, PState.make w (PState.index s) (PState.calls s ++ [Terminal]))
      | Some middleware =>
          let index := PState.index s in
          exec index (execute middleware request)
            (next middlewares request handler fuel')
            (PState.make (PState.world s) (S index)
               (PState.calls s ++ [Invoke index]))
      end
  end.

Definition execute (middlewares : list Middleware) (request : Request.t)
    (handler : Handler) (w : World.t)
  : option (Outcome Response.t * PState.t) :=
  next middlewares request handler (S (length middlewares))
    (PState.make w 0 []).

End MiddlewarePipeline.

(** ** [class HTTPServer] *)

Module HTTPServer.

Record t : Type := make {
  pipeline : list Middleware;
  routes : gmap string Handler
}.

Definition setupMiddleware : list Middleware :=
  MiddlewarePipeline.use AuthorizationMiddleware.new
    (MiddlewarePipeline.use ValidationMiddleware.new
      (MiddlewarePipeline.use AuthenticationMiddleware.new
        (MiddlewarePipeline.use RateLimitingMiddleware.new
          (MiddlewarePipeline.use LoggingMiddleware.new [])))).

Definition respond (status : Z) (body : JsValue) : Handler :=
  fun w => (Ok (Response.make status body None), w).

Definition setupRoutes : gmap string Handler :=
  <["DELETE:/users/123" :=
      respond 200 (JObject [("message", JString "User deleted successfully")])]>
  (<["POST:/users" :=
      respond 201 (JObject [("id", JString "new-user");
                            ("message", JString "User created successfully")])]>
  (<["GET:/users/123" :=
      respond 200 (JObject [("id", JString "123");
                            ("name", JString "John Doe");
                            ("email", JString "john@example.com")])]> ∅)).

(** [new HTTPServer()] *)
Definition new : t := make setupMiddleware setupRoutes.

Definition handleRequest (server : t) (request : Request.t) (w : World.t)
  : option (Response.t * PState.t) :=
  let routeKey := Request.method request +:+ ":" +:+ Request.path request in
  match routes server !! routeKey with
  | None =>
      Some (Response.make 404 (JObject [("error", JString "Route not found")]) None,
            PState.make w 0 [])
  | Some handler =>
      match MiddlewarePipeline.execute (pipeline server) request handler w with
      | Some (Ok response, s) => Some (response, s)
      | Some (Thrown error, s) =>
          (* console.error *)
          let w' := print ("[" +:+ Request.id request +:+ "] Unhandled error: "
                           +:+ message error) (PState.world s) in
          Some (Response.make 500
                  (JObject [("error", JString "Internal server error")]) None,
                PState.make w' (PState.index s) (PState.calls s))
      | None => None
      end
  end.

(** A server that has just been built: no request has been counted. *)
Definition fresh (clock : nat → Z) (user : option Identity.t) : World.t :=
  World.make clock 0 ∅ user [].

End HTTPServer.

(** * Vocabulary of the statements *)

(** The stores that differ at most by what was printed. *)
Definition same_but_console (w w' : World.t) : Prop :=
  World.clock w' = World.clock w ∧ World.ticks w' = World.ticks w
  ∧ World.requests w' = World.requests w ∧ World.user w' = World.user w.

Definition fieldErrors (request : Request.t) (entry : string * Rules.t)
  : list string :=
  ValidationMiddleware.validateField entry.1
    (js_get_opt (Request.body request) entry.1) entry.2.

(** The client under which a request is counted in store [w]. *)
Definition clientOf (request : Request.t) (w : World.t) : string :=
  default "unknown"
    (RateLimitingMiddleware.js_or
       (RateLimitingMiddleware.js_or (Identity.id <$> World.user w)
          (Request.headers request !! "x-forwarded-for"))
       (Some "unknown")).

(** The timestamps stored for a client. *)
Definition storedFor (client : string) (w : World.t) : list Z :=
  default [] (World.requests w !! client).

(** The stored timestamps that the prune at time [now] keeps. *)
Definition inWindow (now : Z) (stored : list Z) : list Z :=
  filter (fun time => (now - time < RateLimitingMiddleware.windowMs)%Z) stored.

(** No client has more than [maxRequests] timestamps stored. *)
Definition within_limit (w : World.t) : Prop :=
  ∀ client stored,
    World.requests w !! client = Some stored →
    length stored ≤ RateLimitingMiddleware.maxRequests.

(** The registered handlers that were invoked, in the order of invocation. *)
Definition invoked (calls : list Call) : list nat :=
  omap (fun c => match c with Invoke i => Some i | _ => None end) calls.

(** The list starts with the call of a handler, registered or terminal. *)
Definition starts_handler (calls : list Call) : Prop :=
  match calls with
  | Invoke _ :: _ | Terminal :: _ => True
  | _ => False
  end.

(** Every call of a continuation is followed at once by the call of a
    handler. *)
Fixpoint answered (calls : list Call) : Prop :=
  match calls with
  | [] => True
  | Delegate _ :: calls' => starts_handler calls' ∧ answered calls'
  | _ :: calls' => answered calls'
  end.

Definition open_end (calls : list Call) : Prop :=
  match last calls with
  | Some (Delegate _) => True
  | _ => False
  end.

(** What a continuation does to a state whose [index] is at least [from],
    [size] handlers being registered. *)
Definition proceeds (size from : nat) (next : Continuation) : Prop :=
  ∀ s, from ≤ PState.index s →
    ∃ o s' run,
      next s = Some (o, s')
      ∧ PState.index s ≤ PState.index s'
      ∧ PState.index s' ≤ PState.index s `max` size
      ∧ PState.calls s' = PState.calls s ++ run
      ∧ invoked run = seq (PState.index s) (PState.index s' - PState.index s)
      ∧ starts_handler run ∧ answered run ∧ ¬ open_end run.

(** A continuation whose calls reach the route handler whenever no
    registered handler is left, or the last registered handler delegates. *)
Definition reaches (size : nat) (next : Continuation) : Prop :=
  ∀ s o s', next s = Some (o, s') →
    ∃ run,
      PState.calls s' = PState.calls s ++ run
      ∧ PState.index s ≤ PState.index s'
      ∧ (size ≤ PState.index s → Terminal ∈ run)
      ∧ (Delegate (size - 1) ∈ run → Terminal ∈ run).

(** In a record that starts when [index] handlers have been invoked, the
    route handler is called only once all [size] registered handlers have
    been. *)
Fixpoint terminal_when_done (size index : nat) (calls : list Call) : Prop :=
  match calls with
  | [] => True
  | Invoke _ :: calls' => terminal_when_done size (S index) calls'
  | Delegate _ :: calls' => terminal_when_done size index calls'
  | Terminal :: calls' => size ≤ index ∧ terminal_when_done size index calls'
  end.

(** A continuation that advances [index] by the number of handlers it
    invokes, and calls the route handler only when none is left. *)
Definition settles (size : nat) (next : Continuation) : Prop :=
  ∀ s o s', next s = Some (o, s') →
    ∃ run,
      PState.calls s' = PState.calls s ++ run
      ∧ PState.index s' = PState.index s + length (invoked run)
      ∧ terminal_when_done size (PState.index s) run.

(** Code that does not call the continuation. *)
Inductive no_next {A : Type} : Prog A → Prop :=
| no_next_Ret a : no_next (Ret a)
| no_next_Throw e : no_next (Throw e)
| no_next_GetW k : (∀ w, no_next (k w)) → no_next (GetW k)
| no_next_PutW w k : no_next k → no_next (PutW w k).

(** Code that calls the continuation at most once on every path: the
    contract of a handler, which returns a response of its own or
    delegates. *)
Inductive at_most_once {A : Type} : Prog A → Prop :=
| once_Ret a : at_most_once (Ret a)
| once_Throw e : at_most_once (Throw e)
| once_GetW k : (∀ w, at_most_once (k w)) → at_most_once (GetW k)
| once_PutW w k : at_most_once k → at_most_once (PutW w k)
| once_Next k : (∀ o, no_next (k o)) → at_most_once (Next k).

Definition follows_contract (middleware : Middleware) : Prop :=
  ∀ request, at_most_once (execute middleware request).

(** [count] handlers from [from] on, each invoked and delegating. *)
Definition delegations (from count : nat) : list Call :=
  flat_map (fun i => [Invoke i; Delegate i]) (seq from count).

(** How a chain that reaches position [position] ends: with the route
    handler past the last registered handler, else with a registered
    handler that does not delegate. *)
Definition ending (size position : nat) : list Call :=
  if decide (size ≤ position) then [Terminal] else [Invoke position].

(** Code whose writes to the store keep a property [P] of the limiter's
    map, as does code that never assigns the map. *)
Inductive quiet {A : Type} (P : gmap string (list Z) → Prop) : Prog A → Prop :=
| quiet_Ret a : quiet P (Ret a)
| quiet_Throw e : quiet P (Throw e)
| quiet_GetW k :
    (∀ w, P (World.requests w) → quiet P (k w)) → quiet P (GetW k)
| quiet_PutW w k : P (World.requests w) → quiet P k → quiet P (PutW w k)
| quiet_Next k : (∀ o, quiet P (k o)) → quiet P (Next k).

(** A new request object reaches the server, [user] being its property of
    that name. *)
Definition arrives (user : option Identity.t) (w : World.t) : World.t :=
  World.make (World.clock w) (World.ticks w) (World.requests w) user
    (World.console w).

(** The stores that a server built by [new HTTPServer()] goes through,
    whatever the clock shows and whatever requests it handles. *)
Inductive served : World.t → Prop :=
| served_fresh clock user : served (HTTPServer.fresh clock user)
| served_arrives user w : served w → served (arrives user w)
| served_handled request w response s :
    served w →
    HTTPServer.handleRequest HTTPServer.new request w = Some (response, s) →
    served (PState.world s).

(** ** The requests of [demonstrateMiddlewarePattern] *)

Definition validRequest : Request.t :=
  Request.make "req-001" "POST" "/users"
    {["authorization" := "Bearer valid-token"]}
    (JObject [("email", JString "test@example.com");
              ("name", JString "Test User");
              ("age", JNumber 25)])
    None.

Definition unauthorizedRequest : Request.t :=
  Request.make "req-002" "DELETE" "/users/123"
    {["authorization" := "Bearer valid-token"]}
    (JObject [])
    None.

(** ** A handler that calls its continuation twice *)

(** [async execute(request, next) { await next(); return await next(); }] *)
Definition callsNextTwice : Middleware :=
  MkMiddleware (fun _ => await_next ≫= fun _ => await_next).

Definition occurrences (c : Call) (calls : list Call) : nat :=
  length (filter (fun c' => c' = c) calls).

(** The specification's sentence on repeated calls, for one execution: no
    handler, registered or terminal, is invoked twice, and an execution in
    which a handler calls its continuation twice ends with a thrown error. *)
Definition second_call_fails (middlewares : list Middleware)
    (request : Request.t) (handler : Handler) (w : World.t) : Prop :=
  ∀ o s,
    MiddlewarePipeline.execute middlewares request handler w = Some (o, s) →
    occurrences Terminal (PState.calls s) ≤ 1
    ∧ (∀ i, occurrences (Invoke i) (PState.calls s) ≤ 1)
    ∧ (∀ i, 2 ≤ occurrences (Delegate i) (PState.calls s) →
         ∃ error, o = Thrown error).

(** [async execute(request, next) { return { status: 403, ... }; }] *)
Definition refuses : Middleware :=
  MkMiddleware (fun _ =>
    mret (Response.make 403 (JObject [("error", JString "Forbidden")]) None)).

(** The specification's sentence on the route handler, for one execution:
    it runs exactly when every registered handler has called its
    continuation. *)
Definition terminal_iff_all_delegate (middlewares : list Middleware)
    (request : Request.t) (handler : Handler) (w : World.t) : Prop :=
  ∀ o s,
    MiddlewarePipeline.execute middlewares request handler w = Some (o, s) →
    Terminal ∈ PState.calls s
    ↔ ∀ i, i < length middlewares → Delegate i ∈ PState.calls s.

(** ** Inputs at which the theorems are applied *)

(** A continuation that would exhaust the execution if it were called. *)
Definition stop : Continuation := fun _ => None.

(** A continuation that answers 204 and leaves the state as it is. *)
Definition finish : Continuation :=
  fun s => Some (Ok (Response.make 204 JNull None), s).

Definition start (w : World.t) : PState.t := PState.make w 0 [].

Definition justBuilt : World.t :=
  HTTPServer.fresh (fun n => (1000 * Z.of_nat n)%Z) None.

Definition noHeaderRequest : Request.t :=
  Request.make "req-003" "GET" "/users/123" ∅ JUndefined None.

Definition expiredTokenRequest : Request.t :=
  Request.make "req-004" "GET" "/users/123"
    {["authorization" := "Bearer expired-token"]} JUndefined None.

Definition incompleteRequest : Request.t :=
  Request.make "req-005" "POST" "/users"
    {["authorization" := "Bearer valid-token"]}
    (JObject [("name", JString "A"); ("age", JNumber 17)])
    None.

Definition unknownRouteRequest : Request.t :=
  Request.make "req-006" "GET" "/admin/users"
    {["authorization" := "Bearer admin-token"]} JUndefined None.

Definition postUsersEntries : list (string * Rules.t) :=
  [ ("email", Rules.make true "email" None None);
    ("name", Rules.make true "string" (Some 2%Z) None);
    ("age", Rules.make false "number" None (Some 18%Z)) ].

(** Ten requests of the client [unknown] in the second before the first
    reading of the clock, which is 1000. *)
Definition saturated : World.t :=
  World.make (fun n => (1000 + Z.of_nat n)%Z) 0
    {["unknown" := [1%Z; 2%Z; 3%Z; 4%Z; 5%Z; 6%Z; 7%Z; 8%Z; 9%Z; 10%Z]]} None [].

(** The same ten requests, two minutes later. *)
Definition elapsed : World.t :=
  World.make (fun n => (120000 + Z.of_nat n)%Z) 0
    {["unknown" := [1%Z; 2%Z; 3%Z; 4%Z; 5%Z; 6%Z; 7%Z; 8%Z; 9%Z; 10%Z]]} None [].

(** A client behind a forwarding header, and the statuses that a server
    answers to requests handled one after the other, each a new object
    without [user]. *)
Definition forwardedRequest : Request.t :=
  Request.make "req-007" "GET" "/users/123"
    (<["x-forwarded-for" := "10.0.0.7"]> {["authorization" := "Bearer valid-token"]})
    JUndefined None.

Fixpoint handleAll (server : HTTPServer.t) (requests : list Request.t)
    (w : World.t) : list Z :=
  match requests with
  | [] => []
  | request :: requests' =>
      match HTTPServer.handleRequest server request (arrives None w) with
      | Some (response, s) =>
          Response.status response :: handleAll server requests' (PState.world s)
      | None => []
      end
  end.

(** ** Vocabulary of the further properties *)

(** The stores that differ at most by what was printed and by the number
    of clock readings. *)
Definition same_but_log (w w' : World.t) : Prop :=
  World.clock w' = World.clock w
  ∧ World.requests w' = World.requests w ∧ World.user w' = World.user w.

(** A route handler that throws. *)
Definition crashes (text : string) : Handler :=
  fun w => (Thrown {| message := text |}, w).

(** The message for a declared field that is required. *)
Definition requiredError (entry : string * Rules.t) : option string :=
  if Rules.required entry.2 then Some (entry.1 +:+ " is required") else None.

(** The strings that [/^[^\s@]+@[^\s@]+\.[^\s@]+$/] describes: three
    non-empty runs of plain characters, an [@] after the first and a dot
    after the second. *)
Definition email_shaped (l : list Ascii.ascii) : Prop :=
  ∃ localPart name tld,
    l = localPart ++ "@"%char :: name ++ "."%char :: tld
    ∧ localPart ≠ [] ∧ name ≠ [] ∧ tld ≠ []
    ∧ forallb is_plain localPart = true
    ∧ forallb is_plain name = true
    ∧ forallb is_plain tld = true.

(** The strings whose characters are all below 128, the ones on which
    [is_space] is [\s]. *)
Definition ascii_only (text : string) : bool :=
  forallb (fun c => Ascii.nat_of_ascii c <? 128) (String.list_ascii_of_string text).

(** A continuation that throws. *)
Definition fails (text : string) : Continuation :=
  fun s => Some (Thrown {| message := text |}, s).

(** The valid request of the demonstration with a field more, which the
    schema of its route does not declare. *)
Definition extraFieldRequest : Request.t :=
  Request.make "req-008" "POST" "/users"
    {["authorization" := "Bearer valid-token"]}
    (JObject [("email", JString "test@example.com");
              ("name", JString "Test User");
              ("age", JNumber 25);
              ("role", JString "admin")])
    None.

(** Any [maxRequests + 1] successive timestamps span at least the
    window. *)
Definition spaced (admitted : list Z) : Prop :=
  ∀ j first last,
    admitted !! j = Some first →
    admitted !! (j + RateLimitingMiddleware.maxRequests) = Some last →
    (RateLimitingMiddleware.windowMs ≤ last - first)%Z.

(** The stored timestamps of a client against all those ever recorded for
    it: the stored ones are the latest, the others had left the window at
    a prune. *)
Definition tracks (admitted stored : list Z) (time : Z) : Prop :=
  ∃ dropped,
    admitted = dropped ++ stored
    ∧ Forall (fun t => (RateLimitingMiddleware.windowMs ≤ time - t)%Z) dropped
    ∧ Forall (fun t => (t ≤ time)%Z) admitted
    ∧ StronglySorted Z.le admitted
    ∧ spaced admitted.

(** What an execution of the limiter adds to the timestamps of its client:
    the timestamp that it records if it admits the request, nothing if it
    rejects it. *)
Definition recorded (request : Request.t) (w w' : World.t) : list Z :=
  let client := clientOf request w in
  drop (length (inWindow (World.clock w (World.ticks w)) (storedFor client w)))
    (storedFor client w').

(** A continuation that returns, leaves the limiter's map and the clock
    alone, and does not take back clock readings. *)
Definition leaves_limiter (next : Continuation) : Prop :=
  ∀ s1 o s2, next s1 = Some (o, s2) →
    World.requests (PState.world s2) = World.requests (PState.world s1)
    ∧ World.clock (PState.world s2) = World.clock (PState.world s1)
    ∧ World.ticks (PState.world s1) ≤ World.ticks (PState.world s2).

(** The stores that a limiter goes through from an empty map, with, for
    every client, all the timestamps that were ever recorded for it. Between
    two executions of the limiter the rest of the program may attach
    identities, print and read the clock; it does not reach the private
    map of the limiter. *)
Inductive limiter_history : World.t → gmap string (list Z) → Prop :=
| history_start clock user :
    limiter_history (HTTPServer.fresh clock user) ∅
| history_elsewhere w w' history :
    limiter_history w history →
    World.clock w' = World.clock w →
    World.requests w' = World.requests w →
    World.ticks w ≤ World.ticks w' →
    limiter_history w' history
| history_execute request i next s o s' history :
    limiter_history (PState.world s) history →
    leaves_limiter next →
    exec i (RateLimitingMiddleware.execute request) next s = Some (o, s') →
    limiter_history (PState.world s')
      (<[clientOf request (PState.world s) :=
           default [] (history !! clientOf request (PState.world s))
           ++ recorded request (PState.world s) (PState.world s')]> history).

(** A server whose clock advances by six seconds at every reading, and
    the state and the recorded timestamps after [n] executions of the
    limiter on one request. *)
Definition sixSecondClock : World.t :=
  HTTPServer.fresh (fun n => (6000 * Z.of_nat n)%Z) None.

Fixpoint repeated (request : Request.t) (n : nat) (s : PState.t)
    (history : gmap string (list Z)) : PState.t * gmap string (list Z) :=
  match n with
  | 0 => (s, history)
  | S n' =>
      match exec 0 (RateLimitingMiddleware.execute request) finish s with
      | Some (_, s') =>
          let client := clientOf request (PState.world s) in
          repeated request n' s'
            (<[client := default [] (history !! client)
                         ++ recorded request (PState.world s) (PState.world s')]>
               history)
      | None => (s, history)
      end
  end.

(** ** The specification's sentences on the limiter *)

(** A clock for a burst: twenty readings in the first milliseconds, ten
    readings 59 seconds later, the following ones after a minute. *)
Definition burstClock (n : nat) : Z :=
  if n <? 20 then Z.of_nat n
  else if n <? 30 then (Z.of_nat n + 59000)%Z
  else (Z.of_nat n + 60020)%Z.

Definition burst : World.t := HTTPServer.fresh burstClock None.

(** The requests that a client issues to the limiter one after the other,
    from state [s]: for each of them the time at which the limiter judges
    it and the status of the answer, 204 being that of the continuation
    [finish]. *)
Fixpoint issues (request : Request.t) (n : nat) (s : PState.t) : list (Z * Z) :=
  match n with
  | 0 => []
  | S n' =>
      match exec 1 (RateLimitingMiddleware.execute request) finish s with
      | Some (Ok response, s') =>
          (World.clock (PState.world s) (World.ticks (PState.world s)),
           Response.status response)
          :: issues request n' s'
      | _ => []
      end
  end.

(** The specification's sentence on the window, for the requests that one
    client has issued: a request that follows [maxRequests] requests issued
    within the trailing [windowMs] is answered 429. *)
Definition issued_within_window_rejected (log : list (Z * Z)) : Prop :=
  ∀ k now status,
    log !! k = Some (now, status) →
    RateLimitingMiddleware.maxRequests
    ≤ length (filter (fun entry => (now - entry.1 < RateLimitingMiddleware.windowMs)%Z)
                (take k log)) →
    status = 429%Z.

(** The specification's invariant, for one execution of the limiter: when
    it has returned, every timestamp stored for a client is within the
    window that ends at the [now] of its prune, and no client has more than
    [maxRequests] of them. *)
Definition stored_within_window (request : Request.t) (i : nat)
    (next : Continuation) (s : PState.t) : Prop :=
  ∀ o s',
    exec i (RateLimitingMiddleware.execute request) next s = Some (o, s') →
    ∀ client stored,
      World.requests (PState.world s') !! client = Some stored →
      Forall (fun time =>
                (World.clock (PState.world s) (World.ticks (PState.world s)) - time
                 < RateLimitingMiddleware.windowMs)%Z) stored
      ∧ length stored ≤ RateLimitingMiddleware.maxRequests.

(** A clock that is set back after its first reading. *)
Definition setBack : World.t :=
  HTTPServer.fresh (fun n => match n with 0 => 100000%Z | _ => 0%Z end) None.

(** A clock that shows two minutes more from its third reading on. *)
Definition twoMinutesLater : World.t :=
  HTTPServer.fresh
    (fun n => if n <? 2 then Z.of_nat n else (Z.of_nat n + 120000)%Z) None.

(** * Properties *)

(** ** Running handler code *)

Lemma same_but_console_refl w : same_but_console w w.
Proof. by repeat split. Qed.

Lemma same_but_console_print line w w' :
  same_but_console w w' → same_but_console w (print line w').
Proof. intros (? & ? & ? & ?). by repeat split. Qed.

#[local] Hint Resolve same_but_console_refl same_but_console_print : core.

Lemma exec_bind {A B : Type} i (p : Prog A) (f : A → Prog B) next s :
  exec i (p ≫= f) next s =
  match exec i p next s with
  | Some (Ok a, s') => exec i (f a) next s'
  | Some (Thrown e, s') => Some (Thrown e, s')
  | None => None
  end.
Proof.
  unfold mbind, Prog_bind. revert s.
  induction p as [a|e|k IH|w k IH|k IH]; intros s; simpl; try done.
  destruct (next _) as [[o s']|]; [apply IH | done].
Qed.

Lemma exec_await_next i next s :
  exec i await_next next s =
  next (PState.make (PState.world s) (PState.index s)
          (PState.calls s ++ [Delegate i])).
Proof. simpl. by destruct (next _) as [[[r|e] s']|]. Qed.

Lemma exec_console_log i line next s :
  exec i (console_log line) next s =
  Some (Ok tt, PState.make (print line (PState.world s)) (PState.index s)
                 (PState.calls s)).
Proof. done. Qed.

Lemma exec_Date_now i next s :
  let w := PState.world s in
  exec i Date_now next s =
  Some (Ok (World.clock w (World.ticks w)),
        PState.make
          (World.make (World.clock w) (S (World.ticks w)) (World.requests w)
             (World.user w) (World.console w))
          (PState.index s) (PState.calls s)).
Proof. done. Qed.

Lemma exec_get_user i next s :
  exec i get_user next s = Some (Ok (World.user (PState.world s)), s).
Proof. done. Qed.

Lemma exec_set_user i user next s :
  let w := PState.world s in
  exec i (set_user user) next s =
  Some (Ok tt,
        PState.make
          (World.make (World.clock w) (World.ticks w) (World.requests w)
             (Some user) (World.console w))
          (PState.index s) (PState.calls s)).
Proof. done. Qed.

Lemma exec_get_requests i next s :
  exec i get_requests next s = Some (Ok (World.requests (PState.world s)), s).
Proof. done. Qed.

Lemma exec_set_requests i stored next s :
  let w := PState.world s in
  exec i (set_requests stored) next s =
  Some (Ok tt,
        PState.make
          (World.make (World.clock w) (World.ticks w) stored
             (World.user w) (World.console w))
          (PState.index s) (PState.calls s)).
Proof. done. Qed.

Lemma exec_mret {A : Type} i (a : A) next s : exec i (mret a) next s = Some (Ok a, s).
Proof. done. Qed.

Ltac simpl_world :=
  cbn [PState.world PState.index PState.calls World.clock World.ticks
       World.requests World.user World.console print].

Ltac run_exec :=
  repeat (first [ rewrite exec_bind | rewrite exec_console_log
                | rewrite exec_await_next | rewrite exec_Date_now
                | rewrite exec_get_user | rewrite exec_set_user
                | rewrite exec_get_requests | rewrite exec_set_requests
                | rewrite exec_mret ];
          cbv beta iota zeta; simpl_world).

(** ** [AuthenticationMiddleware] *)

Lemma verifyToken_cases token :
  (∃ user, AuthenticationMiddleware.verifyToken token = Ret user)
  ∨ AuthenticationMiddleware.verifyToken token = Throw {| message := "Invalid token" |}.
Proof.
  unfold AuthenticationMiddleware.verifyToken.
  destruct (String.eqb token "valid-token"); [left; by eexists |].
  destruct (String.eqb token "admin-token"); [left; by eexists | by right].
Qed.

(** C5. A request whose [authorization] header is absent or does not start
    with [Bearer ] is answered 401 by the Authenticator, and so is, with the
    body message [Invalid token], a request whose token fails verification;
    in both cases the continuation is not called, whatever it is. *)
Theorem authenticator_rejects (request : Request.t) (i : nat)
    (next : Continuation) (s : PState.t) :
  let authHeader := Request.headers request !! "authorization" in
  ((authHeader = None
    ∨ ∃ h, authHeader = Some h ∧ String.prefix "Bearer " h = false) →
   ∃ w',
     exec i (AuthenticationMiddleware.execute request) next s
     = Some (Ok (Response.make 401
                   (JObject [("error",
                              JString "Missing or invalid authorization header")])
                   None),
             PState.make w' (PState.index s) (PState.calls s))
     ∧ same_but_console (PState.world s) w')
  ∧ (∀ h error,
       authHeader = Some h →
       String.prefix "Bearer " h = true →
       AuthenticationMiddleware.verifyToken
         (String.substring 7 (String.length h - 7) h) = Throw error →
       ∃ w',
         exec i (AuthenticationMiddleware.execute request) next s
         = Some (Ok (Response.make 401 (JObject [("error", JString "Invalid token")])
                       None),
                 PState.make w' (PState.index s) (PState.calls s))
         ∧ same_but_console (PState.world s) w').
Proof.
  intros authHeader. split.
  - intros Hbad.
    assert (AuthenticationMiddleware.rejects_header authHeader = true) as Hrej.
    { destruct Hbad as [-> | (h & -> & Hh)]; [done |].
      simpl. rewrite Hh. by rewrite orb_true_r. }
    unfold AuthenticationMiddleware.execute. fold authHeader. rewrite Hrej.
    eexists. split; [reflexivity | auto].
  - intros h error Hh Hpre Hver.
    assert (AuthenticationMiddleware.rejects_header authHeader = false) as Hrej.
    { rewrite Hh. simpl. rewrite Hpre.
      destruct h; [done | simpl; done]. }
    unfold AuthenticationMiddleware.execute. fold authHeader.
    rewrite Hrej, Hh. simpl default. rewrite Hver.
    eexists. split; [reflexivity | auto].
Qed.

(** ** Routes without an entry *)

(** C6. When the key [method:path] has no entry in the schema registry the
    Validator calls its continuation and returns what it returns, and so
    does the Authorizer when the key has no entry in the permission
    registry: the request's body, headers and attached identity play no
    part, and the store handed on differs by printed lines only. *)
Theorem undeclared_route_fail_open (schemas : gmap string Schema.t)
    (permissions : gmap string (list string)) (request : Request.t) (i : nat)
    (next : Continuation) (s : PState.t) :
  let key := Request.method request +:+ ":" +:+ Request.path request in
  (schemas !! key = None →
   ∃ w', exec i (ValidationMiddleware.execute schemas request) next s
         = next (PState.make w' (PState.index s) (PState.calls s ++ [Delegate i]))
         ∧ same_but_console (PState.world s) w')
  ∧ (permissions !! key = None →
     ∃ w', exec i (AuthorizationMiddleware.execute permissions request) next s
           = next (PState.make w' (PState.index s) (PState.calls s ++ [Delegate i]))
           ∧ same_but_console (PState.world s) w').
Proof.
  intros key. split; intros Hkey.
  - unfold ValidationMiddleware.execute. fold key. rewrite Hkey.
    run_exec.
    eexists. split; [reflexivity | auto].
  - unfold AuthorizationMiddleware.execute. fold key. rewrite Hkey.
    run_exec.
    eexists. split; [reflexivity | auto].
Qed.

(** ** [ValidationMiddleware] *)

Lemma validation_loop request entries acc :
  fold_left
    (fun errors '(field, rules) =>
       let value := js_get_opt (Request.body request) field in
       let fieldErrors := ValidationMiddleware.validateField field value rules in
       (errors ++ fieldErrors)%list)
    entries acc
  = (acc ++ concat (fieldErrors request <$> entries))%list.
Proof.
  revert acc. induction entries as [|[field rules] entries IH]; intros acc; simpl.
  - by rewrite app_nil_r.
  - rewrite IH. unfold fieldErrors at 2. simpl. by rewrite app_assoc.
Qed.

Lemma validateRequest_all_fields request entries :
  ValidationMiddleware.validateRequest request (Schema.make (Some entries))
  = concat (fieldErrors request <$> entries).
Proof. unfold ValidationMiddleware.validateRequest. simpl. apply validation_loop. Qed.

Lemma validator_exec schemas request schema i next s :
  schemas !! (Request.method request +:+ ":" +:+ Request.path request) = Some schema →
  let errors := ValidationMiddleware.validateRequest request schema in
  ∃ w', same_but_console (PState.world s) w'
    ∧ exec i (ValidationMiddleware.execute schemas request) next s
      = match errors with
        | [] => next (PState.make w' (PState.index s)
                        (PState.calls s ++ [Delegate i]))
        | _ :: _ =>
            Some (Ok (Response.make 400
                        (JObject [("error", JString "Validation failed");
                                  ("details", JArray (JString <$> errors))])
                        None),
                  PState.make w' (PState.index s) (PState.calls s))
        end.
Proof.
  intros Hkey errors. unfold ValidationMiddleware.execute. rewrite Hkey.
  fold errors. destruct errors as [|e errors'] eqn:Herr; simpl length.
  - change (0 <? 0)%nat with false. cbv iota.
    run_exec.
    eexists. split; [| reflexivity]. auto.
  - change (0 <? S (length errors'))%nat with true. cbv iota.
    run_exec.
    eexists. split; [| reflexivity]. auto.
Qed.


Lemma validateField_missing_required field value rules :
  Rules.required rules = true → is_nullish value = true →
  ValidationMiddleware.validateField field value rules = [field +:+ " is required"].
Proof.
  intros Hreq Hnull. unfold ValidationMiddleware.validateField.
  by rewrite Hreq, Hnull.
Qed.


(** ** [HTTPServer.handleRequest] *)

(** C8. A request whose key [METHOD:path] has no registered route handler is
    answered 404 by [handleRequest] without the pipeline being run: no call
    is recorded, neither of a registered handler nor of a route handler,
    and the store is left as it was. *)
Theorem unknown_route_not_found (server : HTTPServer.t) (request : Request.t)
    (w : World.t) :
  HTTPServer.routes server
    !! (Request.method request +:+ ":" +:+ Request.path request) = None →
  HTTPServer.handleRequest server request w
  = Some (Response.make 404 (JObject [("error", JString "Route not found")]) None,
          PState.make w 0 []).
Proof. intros Hroute. unfold HTTPServer.handleRequest. by rewrite Hroute. Qed.

(** ** [RateLimitingMiddleware] *)

Lemma exec_getClientId request i next s :
  exec i (RateLimitingMiddleware.getClientId request) next s
  = Some (Ok (clientOf request (PState.world s)), s).
Proof. done. Qed.

Lemma exec_isRateLimited client i next s :
  let w := PState.world s in
  let valid := inWindow (World.clock w (World.ticks w)) (storedFor client w) in
  exec i (RateLimitingMiddleware.isRateLimited client) next s
  = Some (Ok (bool_decide (RateLimitingMiddleware.maxRequests ≤ length valid)),
          PState.make
            (World.make (World.clock w) (S (World.ticks w))
               (<[client := valid]> (World.requests w)) (World.user w)
               (World.console w))
            (PState.index s) (PState.calls s)).
Proof. done. Qed.

Lemma exec_recordRequest client i next s :
  let w := PState.world s in
  exec i (RateLimitingMiddleware.recordRequest client) next s
  = Some (Ok tt,
          PState.make
            (World.make (World.clock w) (S (World.ticks w))
               (<[client := storedFor client w ++ [World.clock w (World.ticks w)]]>
                  (World.requests w))
               (World.user w) (World.console w))
            (PState.index s) (PState.calls s)).
Proof. done. Qed.

Lemma rate_limiter_rejects request i next s :
  let w := PState.world s in
  let client := clientOf request w in
  let valid := inWindow (World.clock w (World.ticks w)) (storedFor client w) in
  RateLimitingMiddleware.maxRequests ≤ length valid →
  ∃ w',
    exec i (RateLimitingMiddleware.execute request) next s
    = Some (Ok (Response.make 429 (JObject [("error", JString "Rate limit exceeded")])
                  (Some {["Retry-After" := "60"]})),
            PState.make w' (PState.index s) (PState.calls s))
    ∧ World.requests w' = <[client := valid]> (World.requests w)
    ∧ World.clock w' = World.clock w
    ∧ World.ticks w' = S (World.ticks w)
    ∧ World.user w' = World.user w.
Proof.
  intros w client valid Hfull. subst valid client w.
  unfold RateLimitingMiddleware.execute.
  rewrite exec_bind, exec_getClientId. cbv beta iota.
  rewrite exec_bind, exec_console_log. cbv beta iota.
  rewrite exec_bind, exec_isRateLimited. cbv beta iota zeta.
  unfold storedFor in *. simpl_world.
  rewrite bool_decide_true by done. run_exec.
  eexists. split; [reflexivity |]. by repeat split.
Qed.

Lemma rate_limiter_admits request i next s :
  let w := PState.world s in
  let client := clientOf request w in
  let valid := inWindow (World.clock w (World.ticks w)) (storedFor client w) in
  length valid < RateLimitingMiddleware.maxRequests →
  ∃ w',
    exec i (RateLimitingMiddleware.execute request) next s
    = next (PState.make w' (PState.index s) (PState.calls s ++ [Delegate i]))
    ∧ World.requests w'
      = <[client := valid ++ [World.clock w (S (World.ticks w))]]> (World.requests w)
    ∧ World.clock w' = World.clock w
    ∧ World.ticks w' = S (S (World.ticks w))
    ∧ World.user w' = World.user w.
Proof.
  intros w client valid Hroom. subst valid client w.
  unfold RateLimitingMiddleware.execute.
  rewrite exec_bind, exec_getClientId. cbv beta iota.
  rewrite exec_bind, exec_console_log. cbv beta iota.
  rewrite exec_bind, exec_isRateLimited. cbv beta iota zeta.
  unfold storedFor in *. simpl_world.
  rewrite bool_decide_false by lia.
  rewrite exec_bind, exec_recordRequest. cbv beta iota zeta.
  unfold storedFor. simpl_world. rewrite lookup_insert_eq. simpl default.
  rewrite insert_insert_eq. run_exec.
  eexists. split; [reflexivity |]. by repeat split.
Qed.

Lemma inWindow_spec now stored time :
  time ∈ inWindow now stored
  ↔ (now - time < RateLimitingMiddleware.windowMs)%Z ∧ time ∈ stored.
Proof. unfold inWindow. by rewrite list_elem_of_filter. Qed.

Lemma inWindow_length now stored : length (inWindow now stored) ≤ length stored.
Proof. unfold inWindow. apply length_filter. Qed.

Lemma inWindow_elapsed now stored :
  Forall (fun time => (RateLimitingMiddleware.windowMs ≤ now - time)%Z) stored →
  inWindow now stored = [].
Proof.
  unfold inWindow. induction 1 as [|time stored Htime _ IH]; [done |].
  rewrite filter_cons_False by lia. exact IH.
Qed.

Lemma storedFor_insert client stored w w' :
  World.requests w' = <[client := stored]> (World.requests w) →
  storedFor client w' = stored
  ∧ ∀ other, other ≠ client → storedFor other w' = storedFor other w.
Proof.
  intros Hw'. unfold storedFor. rewrite Hw'. split.
  - by rewrite lookup_insert_eq.
  - intros other Hne. by rewrite lookup_insert_ne.
Qed.

(** ** [RateLimitingMiddleware] over a run *)

Lemma inWindow_all now stored :
  Forall (fun t => (now - t < RateLimitingMiddleware.windowMs)%Z) stored →
  inWindow now stored = stored.
Proof.
  unfold inWindow. induction 1 as [|t stored Ht _ IH]; [done |].
  by rewrite filter_cons_True, IH.
Qed.

Lemma inWindow_suffix now stored :
  StronglySorted Z.le stored →
  ∃ dropped,
    stored = dropped ++ inWindow now stored
    ∧ Forall (fun t => (RateLimitingMiddleware.windowMs ≤ now - t)%Z) dropped.
Proof.
  induction 1 as [|t stored _ IH Hle]; [by exists [] |].
  destruct (decide (now - t < RateLimitingMiddleware.windowMs)%Z) as [Hin | Hout].
  - exists []. split; [| done]. simpl. symmetry. apply inWindow_all.
    constructor; [done |]. eapply Forall_impl; [exact Hle |]. simpl. lia.
  - destruct IH as (dropped & Hstored & Hdropped). exists (t :: dropped).
    unfold inWindow in *. rewrite filter_cons_False by done.
    split; [simpl; by f_equal |]. constructor; [lia | done].
Qed.

Lemma tracks_later admitted stored time time' :
  (time ≤ time')%Z → tracks admitted stored time → tracks admitted stored time'.
Proof.
  intros Hle (dropped & Heq & Hdropped & Hpast & Hsorted & Hspaced).
  exists dropped. split; [done |].
  split; [eapply Forall_impl; [exact Hdropped |]; simpl; lia |].
  split; [eapply Forall_impl; [exact Hpast |]; simpl; lia | done].
Qed.

Lemma tracks_reject admitted stored time now :
  (time ≤ now)%Z → tracks admitted stored time →
  tracks admitted (inWindow now stored) now.
Proof.
  intros Hle (dropped & -> & Hdropped & Hpast & Hsorted & Hspaced).
  destruct (inWindow_suffix now stored) as (pruned & Hstored & Hpruned);
    [by eapply StronglySorted_app_1_r |].
  exists (dropped ++ pruned).
  split; [rewrite <- app_assoc; by f_equal |].
  split; [| split; [eapply Forall_impl; [exact Hpast |]; simpl; lia | done]].
  apply Forall_app. split; [| done].
  eapply Forall_impl; [exact Hdropped |]. simpl. lia.
Qed.

Lemma tracks_admit admitted stored time now reading :
  (time ≤ now)%Z → (now ≤ reading)%Z →
  tracks admitted stored time →
  length (inWindow now stored) < RateLimitingMiddleware.maxRequests →
  tracks (admitted ++ [reading]) (inWindow now stored ++ [reading]) reading.
Proof.
  intros Hle Hread Htracks Hroom.
  destruct (tracks_reject _ _ _ now Hle Htracks)
    as (dropped & Heq & Hdropped & Hpast & Hsorted & Hspaced).
  exists dropped. split; [rewrite Heq; by rewrite <- app_assoc |].
  split; [eapply Forall_impl; [exact Hdropped |]; simpl; lia |]. split.
  { apply Forall_app. split; [| by apply Forall_singleton].
    eapply Forall_impl; [exact Hpast |]. simpl. lia. }
  split.
  { apply StronglySorted_app_2; [| done | repeat constructor].
    intros x1 x2 Hx1 ->%list_elem_of_singleton.
    rewrite Forall_forall in Hpast. specialize (Hpast x1 Hx1). simpl in Hpast. lia. }
  intros j first last Hfirst Hlast.
  destruct (decide (j + RateLimitingMiddleware.maxRequests < length admitted)) as [Hold | Hnew].
  - rewrite lookup_app_l in Hfirst, Hlast by lia. by eapply Hspaced.
  - apply lookup_lt_Some in Hlast as Hbound. rewrite length_app in Hbound.
    simpl in Hbound.
    rewrite lookup_app_r in Hlast by lia.
    replace (j + RateLimitingMiddleware.maxRequests - length admitted) with 0
      in Hlast by lia.
    injection Hlast as <-.
    assert (j < length dropped) as Hj.
    { rewrite Heq, length_app in Hbound. lia. }
    rewrite lookup_app_l in Hfirst by lia.
    rewrite Heq, lookup_app_l in Hfirst by lia.
    rewrite Forall_forall in Hdropped.
    specialize (Hdropped first (list_elem_of_lookup_2 _ _ _ Hfirst)).
    simpl in Hdropped. lia.
Qed.

Lemma clock_monotone (clock : nat → Z) n m :
  (∀ k, (clock k ≤ clock (S k))%Z) → n ≤ m → (clock n ≤ clock m)%Z.
Proof.
  intros Hstep. induction 1 as [|m _ IH]; [lia |].
  specialize (Hstep m). lia.
Qed.

Lemma limiter_history_clock w history :
  limiter_history w history →
  (∀ k, (World.clock w k ≤ World.clock w (S k))%Z) →
  ∀ client,
    tracks (default [] (history !! client)) (storedFor client w)
      (World.clock w (World.ticks w)).
Proof.
  induction 1 as [clock user | w w' history _ IH Hclk Hreq Hticks
                  | request i next s o s' history _ IH Hnext Hexec];
    intros Hclock client.
  - rewrite lookup_empty. exists []. simpl.
    split; [done |]. split; [done |]. split; [done |]. split; [constructor |].
    by intros j first last Hj.
  - rewrite Hclk in Hclock |- *. unfold storedFor. rewrite Hreq.
    eapply tracks_later; [| by apply IH].
    apply clock_monotone; [done | lia].
  - set (w := PState.world s) in *.
    set (mine := clientOf request w) in *.
    set (now := World.clock w (World.ticks w)).
    set (valid := inWindow now (storedFor mine w)).
    assert (World.clock (PState.world s') = World.clock w
            ∧ S (World.ticks w) ≤ World.ticks (PState.world s')
            ∧ ((World.requests (PState.world s') = <[mine := valid]> (World.requests w)
                ∧ RateLimitingMiddleware.maxRequests ≤ length valid)
               ∨ (World.requests (PState.world s')
                  = <[mine := valid ++ [World.clock w (S (World.ticks w))]]>
                      (World.requests w)
                  ∧ length valid < RateLimitingMiddleware.maxRequests
                  ∧ S (S (World.ticks w)) ≤ World.ticks (PState.world s'))))
      as (Hsame & Hticks & Hcases).
    { destruct (decide (RateLimitingMiddleware.maxRequests ≤ length valid)) as [Hfull | Hroom].
      - destruct (rate_limiter_rejects request i next s Hfull)
          as (w' & Hrej & Hreq & Hclk & Htk & _).
        fold w in Hreq, Hclk, Htk. fold mine in Hreq. fold now valid in Hreq.
        rewrite Hrej in Hexec. injection Hexec as _ <-. simpl.
        split; [done |]. split; [lia |]. left. by split.
      - assert (length valid < RateLimitingMiddleware.maxRequests) as Hlt by lia.
        destruct (rate_limiter_admits request i next s Hlt)
          as (w' & Hadm & Hreq & Hclk & Htk & _).
        fold w in Hreq, Hclk, Htk. fold mine in Hreq. fold now valid in Hreq.
        rewrite Hadm in Hexec. apply Hnext in Hexec as (Hreq' & Hclk' & Htk').
        simpl in *. split; [congruence |]. split; [lia |]. right.
        split; [congruence |]. split; [done | lia]. }
    rewrite Hsame in Hclock |- *.
    specialize (IH Hclock).
    assert (now ≤ World.clock w (S (World.ticks w)))%Z as Hread by apply Hclock.
    assert (World.clock w (S (World.ticks w))
            ≤ World.clock w (World.ticks (PState.world s')))%Z as Hlater
      by (apply clock_monotone; [done | lia]).
    destruct (decide (mine = client)) as [<- | Hother].
    + rewrite lookup_insert_eq. simpl default. unfold recorded. fold w mine now valid.
      destruct Hcases as [[Hreq Hfull] | (Hreq & Hroom & Hticks2)].
      * assert (storedFor mine (PState.world s') = valid) as ->
          by (unfold storedFor; by rewrite Hreq, lookup_insert_eq).
        rewrite drop_all, app_nil_r.
        eapply tracks_later; [| eapply (tracks_reject _ _ now now); [lia | apply IH]].
        lia.
      * assert (storedFor mine (PState.world s')
                = valid ++ [World.clock w (S (World.ticks w))]) as ->
          by (unfold storedFor; by rewrite Hreq, lookup_insert_eq).
        rewrite drop_app_length.
        eapply tracks_later;
          [| eapply (tracks_admit _ _ now now); [lia | exact Hread | apply IH | done]].
        apply clock_monotone; [done | lia].
    + rewrite lookup_insert_ne by done.
      assert (storedFor client (PState.world s') = storedFor client w) as ->.
      { unfold storedFor.
        destruct Hcases as [[-> _] | (-> & _)]; by rewrite lookup_insert_ne. }
      eapply tracks_later; [| apply IH]. apply clock_monotone; [done | lia].
Qed.

Lemma finish_leaves_limiter : leaves_limiter finish.
Proof. intros s1 o s2 [= _ <-]. by repeat split. Qed.

Lemma repeated_history request n s history :
  limiter_history (PState.world s) history →
  limiter_history (PState.world (repeated request n s history).1)
    (repeated request n s history).2.
Proof.
  revert s history. induction n as [|n IH]; intros s history Hrun; [exact Hrun |].
  cbn [repeated].
  destruct (exec 0 (RateLimitingMiddleware.execute request) finish s)
    as [[o s']|] eqn:Hexec; [| exact Hrun].
  apply IH. eapply history_execute; [exact Hrun | apply finish_leaves_limiter | exact Hexec].
Qed.

Lemma tracks_inWindow admitted stored time now :
  (time ≤ now)%Z → tracks admitted stored time →
  inWindow now admitted = inWindow now stored.
Proof.
  intros Hle (dropped & -> & Hdropped & _).
  unfold inWindow. rewrite filter_app. fold (inWindow now dropped).
  rewrite inWindow_elapsed; [done |].
  eapply Forall_impl; [exact Hdropped |]. simpl. lia.
Qed.

(** C3 (amended). In a run of the limiter that starts with an empty map,
    under a clock that does not run backwards, take the requests of a client
    that were admitted. When [maxRequests] of them were recorded within the
    trailing [windowMs], the limiter answers the next request of the client
    429 with a [Retry-After] header that is the window in seconds; it keeps
    the timestamps within the window, records none, leaves the other
    clients alone and does not call its continuation. When fewer than
    [maxRequests] of them are within the window, and so when the window has
    elapsed for all of them, the limiter records the request and calls its
    continuation, whose result it returns. The requests that were answered
    429 are not recorded and count for nothing. *)
Theorem rate_limit_window (history : gmap string (list Z)) (request : Request.t)
    (i : nat) (next : Continuation) (s : PState.t) :
  let w := PState.world s in
  let client := clientOf request w in
  let now := World.clock w (World.ticks w) in
  let admitted := default [] (history !! client) in
  limiter_history w history →
  (∀ k, (World.clock w k ≤ World.clock w (S k))%Z) →
  (RateLimitingMiddleware.maxRequests ≤ length (inWindow now admitted) →
   ∃ w',
     exec i (RateLimitingMiddleware.execute request) next s
     = Some (Ok (Response.make 429
                   (JObject [("error", JString "Rate limit exceeded")])
                   (Some {["Retry-After" :=
                             pretty (RateLimitingMiddleware.windowMs / 1000)%Z]})),
             PState.make w' (PState.index s) (PState.calls s))
     ∧ storedFor client w' = inWindow now admitted
     ∧ recorded request w w' = []
     ∧ ∀ other, other ≠ client → storedFor other w' = storedFor other w)
  ∧ (length (inWindow now admitted) < RateLimitingMiddleware.maxRequests →
     ∃ w',
       exec i (RateLimitingMiddleware.execute request) next s
       = next (PState.make w' (PState.index s) (PState.calls s ++ [Delegate i]))
       ∧ storedFor client w'
         = inWindow now admitted ++ [World.clock w (S (World.ticks w))]
       ∧ recorded request w w' = [World.clock w (S (World.ticks w))])
  ∧ (Forall (fun time => (RateLimitingMiddleware.windowMs ≤ now - time)%Z) admitted →
     ∃ w',
       exec i (RateLimitingMiddleware.execute request) next s
       = next (PState.make w' (PState.index s) (PState.calls s ++ [Delegate i]))
       ∧ storedFor client w' = [World.clock w (S (World.ticks w))]).
Proof.
  intros w client now admitted Hrun Hclock.
  pose proof (limiter_history_clock w history Hrun Hclock client) as Htracks.
  assert (inWindow now admitted = inWindow now (storedFor client w)) as Hsame.
  { eapply tracks_inWindow; [| exact Htracks]. lia. }
  rewrite Hsame.
  assert (length (inWindow now (storedFor client w))
          < RateLimitingMiddleware.maxRequests →
          ∃ w',
            exec i (RateLimitingMiddleware.execute request) next s
            = next (PState.make w' (PState.index s) (PState.calls s ++ [Delegate i]))
            ∧ storedFor client w'
              = inWindow now (storedFor client w) ++ [World.clock w (S (World.ticks w))]
            ∧ recorded request w w' = [World.clock w (S (World.ticks w))])
    as Hadmit.
  { intros Hroom.
    destruct (rate_limiter_admits request i next s Hroom) as (w' & Hexec & Hreq & _).
    exists w'. split; [exact Hexec |].
    destruct (storedFor_insert client _ w w' Hreq) as [Hstored _].
    split; [exact Hstored |].
    unfold recorded. fold w client now. rewrite Hstored. apply drop_app_length. }
  split; [| split; [exact Hadmit |]].
  - intros Hfull.
    destruct (rate_limiter_rejects request i next s Hfull) as (w' & Hexec & Hreq & _).
    exists w'. split; [exact Hexec |].
    destruct (storedFor_insert client _ w w' Hreq) as [Hstored Hothers].
    split; [exact Hstored |]. split; [| exact Hothers].
    unfold recorded. fold w client now. rewrite Hstored. apply drop_all.
  - intros Helapsed.
    rewrite <- Hsame, (inWindow_elapsed now admitted Helapsed) in Hadmit.
    destruct Hadmit as (w' & Hexec & Hstored & _);
      [unfold RateLimitingMiddleware.maxRequests; simpl; lia |].
    by exists w'.
Qed.

(** Eleven requests of one client within 44 seconds: ten are served, the
    eleventh is answered 429. *)
Example eleventh_request_rejected :
  handleAll HTTPServer.new (replicate 11 forwardedRequest) justBuilt
  = replicate 10 200%Z ++ [429%Z].
Proof. by vm_compute. Qed.

Lemma within_limit_storedFor client w :
  within_limit w → length (storedFor client w) ≤ RateLimitingMiddleware.maxRequests.
Proof.
  intros Hw. unfold storedFor.
  destruct (World.requests w !! client) as [stored|] eqn:Hc; simpl.
  - by apply (Hw client).
  - lia.
Qed.

Lemma within_limit_insert client stored w w' :
  within_limit w →
  World.requests w' = <[client := stored]> (World.requests w) →
  length stored ≤ RateLimitingMiddleware.maxRequests →
  within_limit w'.
Proof.
  intros Hw Hw' Hlen other stored'. rewrite Hw'.
  destruct (decide (client = other)) as [<- | Hne].
  - rewrite lookup_insert_eq. by intros [= <-].
  - rewrite lookup_insert_ne by done. apply Hw.
Qed.

Lemma rate_limiter_keeps_invariant request i (next : Continuation) s :
  let w := PState.world s in
  let client := clientOf request w in
  let now := World.clock w (World.ticks w) in
  let kept := inWindow now (storedFor client w) in
  within_limit w →
  (∀ s1, PState.index s1 = PState.index s →
         ∃ o s2, next s1 = Some (o, s2)
                 ∧ World.requests (PState.world s2)
                   = World.requests (PState.world s1)) →
  ∃ o s' appended,
    exec i (RateLimitingMiddleware.execute request) next s = Some (o, s')
    ∧ storedFor client (PState.world s') = kept ++ appended
    ∧ (appended = [] ∧ RateLimitingMiddleware.maxRequests ≤ length kept
       ∨ appended = [World.clock w (S (World.ticks w))]
         ∧ length kept < RateLimitingMiddleware.maxRequests)
    ∧ Forall (fun time => (now - time < RateLimitingMiddleware.windowMs)%Z) kept
    ∧ ((now - World.clock w (S (World.ticks w)) < RateLimitingMiddleware.windowMs)%Z →
       Forall (fun time => (now - time < RateLimitingMiddleware.windowMs)%Z)
         (storedFor client (PState.world s')))
    ∧ (∀ other, other ≠ client →
         storedFor other (PState.world s') = storedFor other w)
    ∧ within_limit (PState.world s').
Proof.
  cbv zeta. intros Hw Hnext.
  set (w := PState.world s) in *.
  set (client := clientOf request w) in *.
  set (now := World.clock w (World.ticks w)) in *.
  set (valid := inWindow now (storedFor client w)).
  assert (Forall (fun time => (now - time < RateLimitingMiddleware.windowMs)%Z) valid)
    as Hvalid.
  { apply Forall_forall. intros time Htime. by apply inWindow_spec in Htime as [? _]. }
  assert (length valid ≤ RateLimitingMiddleware.maxRequests) as Hlen.
  { etrans; [apply inWindow_length | by apply within_limit_storedFor]. }
  destruct (decide (RateLimitingMiddleware.maxRequests ≤ length valid)) as [Hfull | Hroom].
  - destruct (rate_limiter_rejects request i next s Hfull) as (w' & Hexec & Hreq & _).
    destruct (storedFor_insert client valid w w' Hreq) as [Hstored Hothers].
    eexists _, _, []. split; [exact Hexec |]. simpl_world.
    rewrite app_nil_r, Hstored.
    split; [done |]. split; [by left |]. split; [done |]. split; [done |].
    split; [done |]. by eapply within_limit_insert.
  - assert (length valid < RateLimitingMiddleware.maxRequests) as Hlt by lia.
    destruct (rate_limiter_admits request i next s Hlt) as (w' & Hexec & Hreq & _).
    destruct (Hnext (PState.make w' (PState.index s) (PState.calls s ++ [Delegate i])))
      as (o & s2 & Hs2 & Hkept); [done |].
    simpl in Hkept. rewrite Hreq in Hkept.
    set (reading := World.clock w (S (World.ticks w))) in *.
    destruct (storedFor_insert client (valid ++ [reading]) w _ Hkept)
      as [Hstored Hothers].
    exists o, s2, [reading]. split; [by rewrite Hexec |].
    split; [done |]. split; [by right |]. split; [done |]. split.
    + intros Hreading. rewrite Hstored. apply Forall_app. split; [exact Hvalid |].
      by apply Forall_singleton.
    + split; [done |].
      apply (within_limit_insert client (valid ++ [reading]) w _ Hw Hkept).
      rewrite length_app. simpl. lia.
Qed.

(** ** [MiddlewarePipeline.execute]: the record of calls *)

Lemma invoked_app l1 l2 : invoked (l1 ++ l2) = invoked l1 ++ invoked l2.
Proof. apply omap_app. Qed.

Lemma open_end_cons c calls : calls ≠ [] → open_end (c :: calls) ↔ open_end calls.
Proof. unfold open_end. destruct calls; [done |]. by rewrite last_cons_cons. Qed.

Lemma open_end_app l1 l2 : l2 ≠ [] → open_end (l1 ++ l2) ↔ open_end l2.
Proof.
  intros Hl2. induction l1 as [|c l1 IH]; [done |].
  simpl. rewrite open_end_cons; [exact IH | by destruct l1, l2].
Qed.

Lemma answered_app l1 l2 :
  answered l1 → ¬ open_end l1 → answered l2 → answered (l1 ++ l2).
Proof.
  intros H1 Hopen H2. induction l1 as [|c l1 IH]; [done |].
  destruct l1 as [|c' l1].
  - by destruct c.
  - assert (answered ((c' :: l1) ++ l2)) as Hrest.
    { apply IH.
      - destruct c; simpl in H1; tauto.
      - by rewrite open_end_cons in Hopen. }
    destruct c; simpl in *; try done.
    split; [| exact Hrest]. destruct H1 as [H1 _]. by destruct c'.
Qed.

Lemma answered_split calls before i after :
  answered calls → calls = before ++ Delegate i :: after → starts_handler after.
Proof.
  revert calls. induction before as [|c before IH]; intros calls Hcalls ->.
  - simpl in Hcalls. tauto.
  - apply (IH (before ++ Delegate i :: after)); [| done].
    destruct c; simpl in Hcalls; tauto.
Qed.

Lemma terminal_when_done_app size index l1 l2 :
  terminal_when_done size index (l1 ++ l2)
  ↔ terminal_when_done size index l1
    ∧ terminal_when_done size (index + length (invoked l1)) l2.
Proof.
  revert index. induction l1 as [|c l1 IH]; intros index; simpl.
  - rewrite Nat.add_0_r. tauto.
  - destruct c; simpl; rewrite IH, ?Nat.add_succ_r; simpl; tauto.
Qed.

Lemma seq_split_next count l1 j l2 : seq 0 count = l1 ++ j :: l2 → j = length l1.
Proof.
  intros Hseq.
  assert (seq 0 count !! length l1 = Some j) as Hj.
  { rewrite Hseq. by rewrite list_lookup_middle. }
  apply lookup_seq in Hj. lia.
Qed.

Section Execution.

Variables (middlewares : list Middleware) (request : Request.t)
          (handler : Handler).

Let size := length middlewares.

Lemma exec_proceeds {A : Type} (from i : nat) (p : Prog A) next s :
  proceeds size from next → from ≤ PState.index s →
  ∃ o s' body,
    exec i p next s = Some (o, s')
    ∧ PState.index s ≤ PState.index s'
    ∧ PState.index s' ≤ PState.index s `max` size
    ∧ PState.calls s' = PState.calls s ++ body
    ∧ invoked body = seq (PState.index s) (PState.index s' - PState.index s)
    ∧ answered body ∧ ¬ open_end body.
Proof.
  intros Hnext. revert s.
  induction p as [a|e|k IH|w k IH|k IH]; intros s Hfrom; simpl.
  - exists (Ok a), s, []. rewrite Nat.sub_diag, app_nil_r.
    repeat split; try lia; try done; by intros [].
  - exists (Thrown e), s, []. rewrite Nat.sub_diag, app_nil_r.
    repeat split; try lia; try done; by intros [].
  - apply IH, Hfrom.
  - apply (IH (PState.make w (PState.index s) (PState.calls s))), Hfrom.
  - set (s0 := PState.make (PState.world s) (PState.index s)
                 (PState.calls s ++ [Delegate i])).
    destruct (Hnext s0 Hfrom)
      as (o & s1 & run & -> & Hle1 & Hmax1 & Hcalls1 & Hinv1 & Hhead & Hans & Hopen).
    destruct (IH o s1) as (o' & s' & body & -> & Hle2 & Hmax2 & Hcalls2 & Hinv2 & Hans2 & Hopen2);
      [simpl in Hle1; lia |].
    simpl in *.
    exists o', s', (Delegate i :: run ++ body).
    split; [done |]. split; [lia |]. split; [lia |]. split.
    { rewrite Hcalls2, Hcalls1, <- !app_assoc. done. }
    split.
    { change (invoked (Delegate i :: run ++ body)) with (invoked (run ++ body)).
      rewrite invoked_app, Hinv1, Hinv2.
      replace (PState.index s' - PState.index s)
        with ((PState.index s1 - PState.index s) + (PState.index s' - PState.index s1))
        by lia.
      rewrite seq_app. do 2 f_equal. lia. }
    split.
    { simpl. split; [by destruct run | by apply answered_app]. }
    destruct body as [|c body].
    + rewrite app_nil_r. rewrite open_end_cons; [done | by destruct run].
    + rewrite open_end_cons by (by destruct run).
      by rewrite open_end_app.
Qed.

Lemma next_proceeds (fuel from : nat) :
  size - from < fuel →
  proceeds size from (MiddlewarePipeline.next middlewares request handler fuel).
Proof.
  revert from. induction fuel as [|fuel IH]; intros from Hfuel s Hfrom; [lia |].
  simpl.
  destruct (middlewares !! PState.index s) as [middleware|] eqn:Hlookup.
  - apply lookup_lt_Some in Hlookup. fold size in Hlookup.
    set (index := PState.index s) in *.
    set (s0 := PState.make (PState.world s) (S index)
                 (PState.calls s ++ [Invoke index])).
    destruct (exec_proceeds (S index) index (execute middleware request)
                (MiddlewarePipeline.next middlewares request handler fuel) s0)
      as (o & s' & body & Hexec & Hle & Hmax & Hcalls & Hinv & Hans & Hopen).
    { apply IH. lia. }
    { done. }
    simpl in *. exists o, s', (Invoke index :: body).
    split; [done |]. split; [lia |]. split; [lia |]. split.
    { by rewrite Hcalls, <- app_assoc. }
    split.
    { simpl. rewrite Hinv.
      replace (PState.index s' - index) with (S (PState.index s' - S index)) by lia.
      done. }
    split; [done |]. split; [done |].
    destruct body as [|c body]; [by intros [] |].
    by rewrite open_end_cons.
  - destruct (handler (PState.world s)) as [o w] eqn:Hhandler.
    exists o, (PState.make w (PState.index s) (PState.calls s ++ [Terminal])),
      [Terminal].
    simpl. rewrite Nat.sub_diag. repeat split; try lia; by intros [].
Qed.

(** Enough fuel is provided: an execution returns, the registered
    handlers are invoked in the order of registration, each at most
    once, and every call of a continuation runs a handler. *)
Lemma execute_total w :
  ∃ o s invocations,
    MiddlewarePipeline.execute middlewares request handler w = Some (o, s)
    ∧ invocations ≤ size
    ∧ invoked (PState.calls s) = seq 0 invocations
    ∧ answered (PState.calls s).
Proof.
  unfold MiddlewarePipeline.execute. fold size.
  destruct (next_proceeds (S size) 0 ltac:(lia) (PState.make w 0 []))
    as (o & s & run & Hnext & _ & Hmax & Hcalls & Hinv & _ & Hans & _);
    [simpl; lia |].
  simpl in *. exists o, s, (PState.index s).
  rewrite Nat.sub_0_r in Hinv. by rewrite Hcalls.
Qed.

Lemma exec_reaches {A : Type} (i : nat) (p : Prog A) next s o s' :
  reaches size next → S i ≤ PState.index s →
  exec i p next s = Some (o, s') →
  ∃ body,
    PState.calls s' = PState.calls s ++ body
    ∧ PState.index s ≤ PState.index s'
    ∧ (Delegate (size - 1) ∈ body → Terminal ∈ body).
Proof.
  intros Hnext. revert s.
  induction p as [a|e|k IH|w k IH|k IH]; intros s Hfrom; simpl.
  - intros [= <- <-]. exists []. rewrite app_nil_r.
    split; [done |]. split; [done |]. by intros ?%elem_of_nil.
  - intros [= <- <-]. exists []. rewrite app_nil_r.
    split; [done |]. split; [done |]. by intros ?%elem_of_nil.
  - apply IH, Hfrom.
  - apply (IH (PState.make w (PState.index s) (PState.calls s))), Hfrom.
  - destruct (next _) as [[o1 s1]|] eqn:Hcall; [| done]. intros Hexec.
    apply Hnext in Hcall as (run & Hcalls1 & Hle1 & Hpast & Hlast).
    simpl in *.
    apply IH in Hexec as (body & Hcalls2 & Hle2 & Hbody); [| lia].
    exists (Delegate i :: run ++ body).
    split; [by rewrite Hcalls2, Hcalls1, <- !app_assoc |]. split; [lia |].
    intros [[= Hi] | [Hin | Hin]%elem_of_app]%elem_of_cons;
      apply elem_of_cons; right; apply elem_of_app.
    + left. apply Hpast. lia.
    + left. by apply Hlast.
    + right. by apply Hbody.
Qed.

Lemma next_reaches (fuel : nat) :
  reaches size (MiddlewarePipeline.next middlewares request handler fuel).
Proof.
  induction fuel as [|fuel IH]; intros s o s'; [done |]. simpl.
  destruct (middlewares !! PState.index s) as [middleware|] eqn:Hlookup.
  - apply lookup_lt_Some in Hlookup. fold size in Hlookup. intros Hexec.
    apply (exec_reaches _ _ _ _ _ _ IH) in Hexec as (body & Hcalls & Hle & Hbody);
      [| done].
    simpl in *. exists (Invoke (PState.index s) :: body).
    split; [by rewrite Hcalls, <- app_assoc |]. split; [lia |]. split; [lia |].
    intros [[=] | Hin]%elem_of_cons. apply elem_of_cons. right. by apply Hbody.
  - destruct (handler (PState.world s)) as [o0 w]. intros [= _ <-]. simpl.
    exists [Terminal]. split; [done |]. split; [done |].
    split; intros _; apply list_elem_of_here.
Qed.

Lemma exec_settles {A : Type} (i : nat) (p : Prog A) next s o s' :
  settles size next →
  exec i p next s = Some (o, s') →
  ∃ body,
    PState.calls s' = PState.calls s ++ body
    ∧ PState.index s' = PState.index s + length (invoked body)
    ∧ terminal_when_done size (PState.index s) body.
Proof.
  intros Hnext. revert s.
  induction p as [a|e|k IH|w k IH|k IH]; intros s; simpl.
  - intros [= <- <-]. exists []. by rewrite app_nil_r, Nat.add_0_r.
  - intros [= <- <-]. exists []. by rewrite app_nil_r, Nat.add_0_r.
  - apply IH.
  - apply (IH (PState.make w (PState.index s) (PState.calls s))).
  - destruct (next _) as [[o1 s1]|] eqn:Hcall; [| done]. intros Hexec.
    apply Hnext in Hcall as (run & Hcalls1 & Hindex1 & Hrun). simpl in *.
    apply IH in Hexec as (body & Hcalls2 & Hindex2 & Hbody).
    exists (Delegate i :: run ++ body).
    split; [by rewrite Hcalls2, Hcalls1, <- !app_assoc |].
    change (invoked (Delegate i :: run ++ body)) with (invoked (run ++ body)).
    rewrite invoked_app, length_app. split; [lia |].
    simpl. apply terminal_when_done_app. split; [done |]. by rewrite <- Hindex1.
Qed.

Lemma next_settles (fuel : nat) :
  settles size (MiddlewarePipeline.next middlewares request handler fuel).
Proof.
  induction fuel as [|fuel IH]; intros s o s'; [done |]. simpl.
  destruct (middlewares !! PState.index s) as [middleware|] eqn:Hlookup.
  - intros Hexec.
    apply (exec_settles _ _ _ _ _ _ IH) in Hexec as (body & Hcalls & Hindex & Hbody).
    simpl in *. exists (Invoke (PState.index s) :: body).
    split; [by rewrite Hcalls, <- app_assoc |]. simpl. split; [lia | done].
  - apply lookup_ge_None in Hlookup. fold size in Hlookup.
    destruct (handler (PState.world s)) as [o0 w]. intros [= _ <-]. simpl.
    exists [Terminal]. simpl. split; [done |]. split; [lia | done].
Qed.

(** In the record of an execution the route handler is called only after
    every registered handler has been invoked. *)
Lemma execute_terminal_when_done w o s :
  MiddlewarePipeline.execute middlewares request handler w = Some (o, s) →
  terminal_when_done size 0 (PState.calls s).
Proof.
  intros Hexec. apply next_settles in Hexec as (run & Hcalls & _ & Hrun).
  simpl in *. by subst run.
Qed.

(** The route handler runs as soon as every registered handler calls its
    continuation. *)
Lemma execute_reaches_terminal w o s :
  MiddlewarePipeline.execute middlewares request handler w = Some (o, s) →
  (∀ i, i < size → Delegate i ∈ PState.calls s) →
  Terminal ∈ PState.calls s.
Proof.
  intros Hexec Hall.
  apply next_reaches in Hexec as (run & Hcalls & _ & Hpast & Hlast).
  simpl in *. subst run. destruct (decide (size = 0)) as [Hnone | Hsome].
  - apply Hpast. lia.
  - apply Hlast, Hall. lia.
Qed.

End Execution.

(** ** Handlers that call their continuation at most once *)

Create HintDb contract.

Lemma no_next_at_most_once {A : Type} (p : Prog A) : no_next p → at_most_once p.
Proof. induction 1; by constructor. Qed.

Lemma no_next_bind {A B : Type} (p : Prog A) (f : A → Prog B) :
  no_next p → (∀ a, no_next (f a)) → no_next (p ≫= f).
Proof.
  intros Hp Hf. unfold mbind, Prog_bind.
  induction Hp; simpl; [apply Hf | by constructor..].
Qed.

Lemma no_next_try_catch {A : Type} (p : Prog A) h :
  no_next p → (∀ e, no_next (h e)) → no_next (try_catch p h).
Proof. intros Hp Hh. induction Hp; simpl; [by constructor | apply Hh | by constructor..]. Qed.

Lemma at_most_once_bind {A B : Type} (p : Prog A) (f : A → Prog B) :
  no_next p → (∀ a, at_most_once (f a)) → at_most_once (p ≫= f).
Proof.
  intros Hp Hf. unfold mbind, Prog_bind.
  induction Hp; simpl; [apply Hf | by constructor..].
Qed.

Lemma at_most_once_then {A B : Type} (p : Prog A) (f : A → Prog B) :
  at_most_once p → (∀ a, no_next (f a)) → at_most_once (p ≫= f).
Proof.
  intros Hp Hf. unfold mbind, Prog_bind.
  induction Hp as [a|e|k _ IH|w k _ IH|k Hk]; simpl.
  - by apply no_next_at_most_once.
  - constructor.
  - by constructor.
  - by constructor.
  - constructor. intros o. by apply (no_next_bind (k o) f).
Qed.

Lemma at_most_once_try_catch {A : Type} (p : Prog A) h :
  at_most_once p → (∀ e, no_next (h e)) → at_most_once (try_catch p h).
Proof.
  intros Hp Hh. induction Hp as [a|e|k _ IH|w k _ IH|k Hk]; simpl.
  - constructor.
  - by apply no_next_at_most_once.
  - by constructor.
  - by constructor.
  - constructor. intros o. by apply no_next_try_catch.
Qed.

Lemma no_next_modify f : no_next (modify f).
Proof. repeat constructor. Qed.

Lemma no_next_console_log line : no_next (console_log line).
Proof. apply no_next_modify. Qed.

Lemma no_next_Date_now : no_next Date_now.
Proof. repeat constructor. Qed.

Lemma no_next_get_user : no_next get_user.
Proof. repeat constructor. Qed.

Lemma no_next_set_user user : no_next (set_user user).
Proof. apply no_next_modify. Qed.

Lemma no_next_get_requests : no_next get_requests.
Proof. repeat constructor. Qed.

Lemma no_next_set_requests stored : no_next (set_requests stored).
Proof. apply no_next_modify. Qed.

Lemma no_next_mret {A : Type} (a : A) : no_next (mret a).
Proof. constructor. Qed.

Lemma at_most_once_mret {A : Type} (a : A) : at_most_once (mret a).
Proof. constructor. Qed.

Lemma at_most_once_await_next : at_most_once await_next.
Proof. constructor. intros [r|e]; constructor. Qed.

#[global] Hint Resolve no_next_console_log no_next_Date_now no_next_get_user
  no_next_set_user no_next_get_requests no_next_set_requests no_next_mret
  at_most_once_mret at_most_once_await_next no_next_Throw once_Throw : contract.
#[global] Hint Resolve no_next_bind no_next_try_catch at_most_once_bind
  at_most_once_try_catch : contract.

Lemma LoggingMiddleware_contract : follows_contract LoggingMiddleware.new.
Proof.
  intros request. simpl. unfold LoggingMiddleware.execute.
  apply at_most_once_bind; [auto with contract |]. intros startTime.
  apply at_most_once_bind; [auto with contract |]. intros _.
  apply at_most_once_try_catch.
  - apply at_most_once_then; [auto with contract |]. intros response.
    auto 10 with contract.
  - intros error. auto 10 with contract.
Qed.

Lemma RateLimitingMiddleware_contract : follows_contract RateLimitingMiddleware.new.
Proof.
  intros request. simpl. unfold RateLimitingMiddleware.execute.
  apply at_most_once_bind.
  { unfold RateLimitingMiddleware.getClientId. auto with contract. }
  intros clientId. apply at_most_once_bind; [auto with contract |]. intros _.
  apply at_most_once_bind.
  { unfold RateLimitingMiddleware.isRateLimited. auto 10 with contract. }
  intros [|].
  - auto 10 with contract.
  - apply at_most_once_bind.
    { unfold RateLimitingMiddleware.recordRequest. auto 10 with contract. }
    auto 10 with contract.
Qed.

Lemma AuthenticationMiddleware_contract : follows_contract AuthenticationMiddleware.new.
Proof.
  intros request. simpl. unfold AuthenticationMiddleware.execute.
  apply at_most_once_bind; [auto with contract |]. intros _.
  destruct (AuthenticationMiddleware.rejects_header _); [auto with contract |].
  apply at_most_once_try_catch; [| auto with contract].
  apply at_most_once_bind; [| auto 10 with contract].
  destruct (verifyToken_cases
              (String.substring 7
                 (String.length (default "" (Request.headers request !! "authorization")) - 7)
                 (default "" (Request.headers request !! "authorization"))))
    as [[user ->] | ->]; constructor.
Qed.

Lemma ValidationMiddleware_contract schemas :
  follows_contract (MkMiddleware (ValidationMiddleware.execute schemas)).
Proof.
  intros request. simpl. unfold ValidationMiddleware.execute.
  apply at_most_once_bind; [auto with contract |]. intros _.
  destruct (schemas !! _) as [schema|]; [| auto 10 with contract].
  destruct (0 <? _); auto 10 with contract.
Qed.

Lemma AuthorizationMiddleware_contract permissions :
  follows_contract (MkMiddleware (AuthorizationMiddleware.execute permissions)).
Proof.
  intros request. simpl. unfold AuthorizationMiddleware.execute.
  apply at_most_once_bind; [auto with contract |]. intros _.
  destruct (permissions !! _) as [requiredRoles|]; [| auto 10 with contract].
  apply at_most_once_bind; [auto with contract |]. intros [user|].
  - destruct (negb _); auto 10 with contract.
  - auto with contract.
Qed.

Lemma setupMiddleware_contract : Forall follows_contract HTTPServer.setupMiddleware.
Proof.
  unfold HTTPServer.setupMiddleware, MiddlewarePipeline.use. simpl.
  repeat apply Forall_cons_2; [.. | apply Forall_nil_2].
  - apply LoggingMiddleware_contract.
  - apply RateLimitingMiddleware_contract.
  - apply AuthenticationMiddleware_contract.
  - apply ValidationMiddleware_contract.
  - apply AuthorizationMiddleware_contract.
Qed.

Lemma exec_no_next {A : Type} i (p : Prog A) s :
  no_next p →
  ∃ o w', ∀ next,
    exec i p next s = Some (o, PState.make w' (PState.index s) (PState.calls s)).
Proof.
  intros Hp. revert s. induction Hp as [a|e|k _ IH|w k _ IH]; intros s; simpl.
  - exists (Ok a), (PState.world s). by destruct s.
  - exists (Thrown e), (PState.world s). by destruct s.
  - apply IH.
  - apply (IH (PState.make w (PState.index s) (PState.calls s))).
Qed.

Lemma exec_at_most_once {A : Type} i (p : Prog A) (next : Continuation) s o s' :
  at_most_once p →
  exec i p next s = Some (o, s') →
  (PState.index s' = PState.index s ∧ PState.calls s' = PState.calls s)
  ∨ ∃ w1 o1 s1,
      next (PState.make w1 (PState.index s) (PState.calls s ++ [Delegate i]))
      = Some (o1, s1)
      ∧ PState.index s' = PState.index s1 ∧ PState.calls s' = PState.calls s1.
Proof.
  intros Hp. revert s. induction Hp as [a|e|k _ IH|w k _ IH|k Hk]; intros s; simpl.
  - intros [= <- <-]. by left.
  - intros [= <- <-]. by left.
  - apply IH.
  - intros Hexec. exact (IH _ Hexec).
  - destruct (next _) as [[o1 s1]|] eqn:Hnext; [| done]. intros Hexec. right.
    exists (PState.world s), o1, s1. split; [done |].
    destruct (exec_no_next i (k o1) s1 (Hk o1)) as (o2 & w2 & Hrest).
    rewrite Hrest in Hexec. by injection Hexec as _ <-.
Qed.

Lemma delegations_S from count :
  delegations from (S count)
  = Invoke from :: Delegate from :: delegations (S from) count.
Proof. done. Qed.

Lemma Terminal_in_delegations from count : Terminal ∉ delegations from count.
Proof.
  revert from. induction count as [|count IH]; intros from.
  - apply not_elem_of_nil.
  - rewrite delegations_S, !not_elem_of_cons. by auto.
Qed.

Lemma Delegate_in_delegations i from count :
  Delegate i ∈ delegations from count ↔ from ≤ i < from + count.
Proof.
  revert from. induction count as [|count IH]; intros from.
  - unfold delegations. simpl. rewrite elem_of_nil. lia.
  - rewrite delegations_S, !elem_of_cons, IH.
    split.
    + intros [[=] | [[= ->] | ?]]; lia.
    + intros ?. destruct (decide (i = from)) as [-> | ?]; [auto |].
      right; right. lia.
Qed.

Section Chain.

Variables (middlewares : list Middleware) (request : Request.t)
          (handler : Handler).
Hypothesis contract : Forall follows_contract middlewares.

Let size := length middlewares.

Lemma next_chain fuel s o s' :
  MiddlewarePipeline.next middlewares request handler fuel s = Some (o, s') →
  ∃ count,
    PState.index s + count ≤ PState.index s `max` size
    ∧ PState.calls s'
      = PState.calls s ++ delegations (PState.index s) count
        ++ ending size (PState.index s + count).
Proof using contract.
  revert s o s'. induction fuel as [|fuel IH]; intros s o s'; [done |].
  simpl. destruct (middlewares !! PState.index s) as [middleware|] eqn:Hlookup.
  - pose proof (lookup_lt_Some _ _ _ Hlookup) as Hlt. fold size in Hlt.
    assert (follows_contract middleware) as Hm.
    { eapply Forall_forall; [exact contract |].
      by eapply list_elem_of_lookup_2. }
    intros Hexec.
    apply (exec_at_most_once _ _ _ _ _ _ (Hm request)) in Hexec
      as [[_ Hcalls] | (w1 & o1 & s1 & Hnext & _ & Hcalls)]; simpl in *.
    + exists 0. split; [lia |]. rewrite Hcalls, Nat.add_0_r.
      unfold ending. rewrite decide_False by lia. done.
    + apply IH in Hnext as (count & Hbound & Hcalls1). simpl in *.
      exists (S count). split; [lia |].
      rewrite Hcalls, Hcalls1, delegations_S, <- !app_assoc. simpl.
      by rewrite Nat.add_succ_r.
  - apply lookup_ge_None in Hlookup. fold size in Hlookup.
    destruct (handler (PState.world s)) as [o0 w]. intros [= _ <-]. simpl.
    exists 0. split; [lia |]. rewrite Nat.add_0_r.
    unfold ending. rewrite decide_True by lia. done.
Qed.

(** The record of an execution whose handlers follow the contract: a
    row of handlers that delegate, then the route handler if the row
    is complete, else the handler that does not delegate. *)
Lemma execute_chain w o s :
  MiddlewarePipeline.execute middlewares request handler w = Some (o, s) →
  ∃ count,
    count ≤ size
    ∧ PState.calls s = delegations 0 count ++ ending size count
    ∧ (Terminal ∈ PState.calls s ↔ ∀ i, i < size → Delegate i ∈ PState.calls s).
Proof using contract.
  intros Hexec. apply next_chain in Hexec as (count & Hbound & Hcalls).
  simpl in *. exists count. split; [lia |]. split; [exact Hcalls |].
  rewrite Hcalls. unfold ending. destruct (decide (size ≤ count)) as [Hall | Hsome].
  - split; [| intros _; apply elem_of_app; right; apply list_elem_of_singleton; done].
    intros _ i Hi. apply elem_of_app. left. apply Delegate_in_delegations. lia.
  - split.
    + intros [Hin | Hin%list_elem_of_singleton]%elem_of_app; [| done].
      by apply Terminal_in_delegations in Hin.
    + intros Hdel. assert (count < size) as Hcount by lia.
      apply Hdel, elem_of_app in Hcount as [Hin | Hin%list_elem_of_singleton];
        [| done].
      apply Delegate_in_delegations in Hin. lia.
Qed.

End Chain.

(** ** The limiter's map across a whole request *)

Create HintDb quiet.

Lemma quiet_bind {A B : Type} P (p : Prog A) (f : A → Prog B) :
  quiet P p → (∀ a, quiet P (f a)) → quiet P (p ≫= f).
Proof.
  intros Hp Hf. unfold mbind, Prog_bind.
  induction Hp; simpl; [apply Hf | by constructor..].
Qed.

Lemma quiet_try_catch {A : Type} P (p : Prog A) h :
  quiet P p → (∀ e, quiet P (h e)) → quiet P (try_catch p h).
Proof.
  intros Hp Hh. induction Hp; simpl; [by constructor | apply Hh | by constructor..].
Qed.

Lemma quiet_console_log P line : quiet P (console_log line).
Proof. constructor. intros w Hw. by repeat constructor. Qed.

Lemma quiet_Date_now P : quiet P Date_now.
Proof. constructor. intros w Hw. by repeat constructor. Qed.

Lemma quiet_get_user P : quiet P get_user.
Proof. constructor. intros w Hw. constructor. Qed.

Lemma quiet_set_user P user : quiet P (set_user user).
Proof. constructor. intros w Hw. by repeat constructor. Qed.

Lemma quiet_mret {A : Type} P (a : A) : quiet P (mret a).
Proof. constructor. Qed.

Lemma quiet_await_next P : quiet P await_next.
Proof. constructor. intros [r|e]; constructor. Qed.

#[global] Hint Resolve quiet_bind quiet_try_catch quiet_console_log quiet_Date_now
  quiet_get_user quiet_set_user quiet_mret quiet_await_next quiet_Throw : quiet.

Lemma LoggingMiddleware_quiet P request : quiet P (LoggingMiddleware.execute request).
Proof. unfold LoggingMiddleware.execute. auto 12 with quiet. Qed.

Lemma AuthenticationMiddleware_quiet P request :
  quiet P (AuthenticationMiddleware.execute request).
Proof.
  unfold AuthenticationMiddleware.execute.
  apply quiet_bind; [auto with quiet |]. intros _.
  destruct (AuthenticationMiddleware.rejects_header _); [auto with quiet |].
  apply quiet_try_catch; [| auto with quiet].
  apply quiet_bind; [| auto 10 with quiet].
  destruct (verifyToken_cases
              (String.substring 7
                 (String.length (default "" (Request.headers request !! "authorization")) - 7)
                 (default "" (Request.headers request !! "authorization"))))
    as [[user ->] | ->]; constructor.
Qed.

Lemma ValidationMiddleware_quiet P schemas request :
  quiet P (ValidationMiddleware.execute schemas request).
Proof.
  unfold ValidationMiddleware.execute.
  apply quiet_bind; [auto with quiet |]. intros _.
  destruct (schemas !! _) as [schema|]; [| auto 10 with quiet].
  destruct (0 <? _); auto 10 with quiet.
Qed.

Lemma AuthorizationMiddleware_quiet P permissions request :
  quiet P (AuthorizationMiddleware.execute permissions request).
Proof.
  unfold AuthorizationMiddleware.execute.
  apply quiet_bind; [auto with quiet |]. intros _.
  destruct (permissions !! _) as [requiredRoles|]; [| auto 10 with quiet].
  apply quiet_bind; [auto with quiet |]. intros [user|].
  - destruct (negb _); auto 10 with quiet.
  - auto with quiet.
Qed.

Lemma exec_quiet {A : Type} P (from i : nat) (p : Prog A) (next : Continuation)
    s o s' :
  quiet P p →
  (∀ s1 o1 s2, from ≤ PState.index s1 →
     P (World.requests (PState.world s1)) →
     next s1 = Some (o1, s2) →
     P (World.requests (PState.world s2)) ∧ PState.index s1 ≤ PState.index s2) →
  from ≤ PState.index s →
  P (World.requests (PState.world s)) →
  exec i p next s = Some (o, s') →
  P (World.requests (PState.world s')) ∧ PState.index s ≤ PState.index s'.
Proof.
  intros Hp Hnext. revert s.
  induction Hp as [a|e|k _ IH|w k Hw _ IH|k _ IH]; intros s Hfrom Hs; simpl.
  - by intros [= <- <-].
  - by intros [= <- <-].
  - by apply IH.
  - apply (IH (PState.make w (PState.index s) (PState.calls s))); done.
  - destruct (next _) as [[o1 s1]|] eqn:Hcall; [| done]. intros Hexec.
    apply Hnext in Hcall as [Hs1 Hle1]; [| done..]. simpl in Hle1.
    apply IH in Hexec as [Hs' Hle']; [| lia | done]. split; [done | lia].
Qed.

Section Quiet.

Variables (middlewares : list Middleware) (request : Request.t)
          (handler : Handler) (P : gmap string (list Z) → Prop) (from : nat).

Hypothesis quiet_handlers :
  ∀ i middleware,
    from ≤ i → middlewares !! i = Some middleware →
    quiet P (execute middleware request).

Hypothesis quiet_route :
  ∀ w, P (World.requests w) → P (World.requests (handler w).2).

Lemma next_quiet fuel s o s' :
  from ≤ PState.index s →
  P (World.requests (PState.world s)) →
  MiddlewarePipeline.next middlewares request handler fuel s = Some (o, s') →
  P (World.requests (PState.world s')) ∧ PState.index s ≤ PState.index s'.
Proof using quiet_handlers quiet_route.
  revert s o s'. induction fuel as [|fuel IH]; intros s o s' Hfrom Hs; [done |].
  simpl. destruct (middlewares !! PState.index s) as [middleware|] eqn:Hlookup.
  - intros Hexec.
    apply (exec_quiet P from) in Hexec as [Hs' Hle]; simpl in *.
    + split; [done | lia].
    + by eapply quiet_handlers.
    + intros s1 o1 s2 Hfrom1 Hs1 Hcall. by eapply IH.
    + lia.
    + done.
  - pose proof (quiet_route (PState.world s) Hs) as Hroute.
    destruct (handler (PState.world s)) as [o0 w]. intros [= _ <-]. done.
Qed.

End Quiet.

Lemma next_S middlewares request handler fuel s :
  MiddlewarePipeline.next middlewares request handler (S fuel) s
  = match middlewares !! PState.index s with
    | None =>
        let '(o, w) := handler (PState.world s) in
        Some (o, PState.make w (PState.index s) (PState.calls s ++ [Terminal]))
    | Some middleware =>
        let index := PState.index s in
        exec index (execute middleware request)
          (MiddlewarePipeline.next middlewares request handler fuel)
          (PState.make (PState.world s) (S index)
             (PState.calls s ++ [Invoke index]))
    end.
Proof. done. Qed.

Lemma rate_limiter_keeps_limit request i (next : Continuation) s o s' :
  within_limit (PState.world s) →
  (∀ s1 o1 s2, PState.index s1 = PState.index s →
     next s1 = Some (o1, s2) →
     World.requests (PState.world s2) = World.requests (PState.world s1)) →
  exec i (RateLimitingMiddleware.execute request) next s = Some (o, s') →
  within_limit (PState.world s').
Proof.
  intros Hw Hnext.
  set (w := PState.world s) in *.
  set (client := clientOf request w).
  set (valid := inWindow (World.clock w (World.ticks w)) (storedFor client w)).
  assert (length valid ≤ RateLimitingMiddleware.maxRequests) as Hlen.
  { etrans; [apply inWindow_length | by apply within_limit_storedFor]. }
  destruct (decide (RateLimitingMiddleware.maxRequests ≤ length valid)) as [Hfull | Hroom].
  - destruct (rate_limiter_rejects request i next s Hfull) as (w' & -> & Hreq & _).
    intros [= _ <-]. simpl_world. by eapply within_limit_insert.
  - assert (length valid < RateLimitingMiddleware.maxRequests) as Hlt by lia.
    destruct (rate_limiter_admits request i next s Hlt) as (w' & -> & Hreq & _).
    intros Hcall. apply Hnext in Hcall; [| done]. simpl in Hcall.
    rewrite Hreq in Hcall.
    eapply within_limit_insert; [exact Hw | exact Hcall |].
    rewrite length_app. simpl. fold w client valid. lia.
Qed.

Lemma setupRoutes_keep_store key handler w :
  HTTPServer.setupRoutes !! key = Some handler → (handler w).2 = w.
Proof.
  unfold HTTPServer.setupRoutes.
  rewrite !lookup_insert. repeat case_decide; by intros [= <-].
Qed.

(** Handling a request keeps the bound on every client's timestamps. *)
Lemma handleRequest_keeps_limit request w response s :
  within_limit w →
  HTTPServer.handleRequest HTTPServer.new request w = Some (response, s) →
  within_limit (PState.world s).
Proof.
  intros Hw. unfold HTTPServer.handleRequest.
  destruct (HTTPServer.routes HTTPServer.new !! _) as [handler|] eqn:Hroute;
    [| by intros [= _ <-]].
  assert (∀ w0, (handler w0).2 = w0) as Hhandler.
  { intros w0. by eapply setupRoutes_keep_store. }
  set (next := MiddlewarePipeline.next (HTTPServer.pipeline HTTPServer.new) request handler).
  assert (∀ P fuel s1 o1 s2,
            2 ≤ PState.index s1 → P (World.requests (PState.world s1)) →
            next fuel s1 = Some (o1, s2) →
            P (World.requests (PState.world s2)) ∧ PState.index s1 ≤ PState.index s2)
    as Hafter.
  { intros P fuel s1 o1 s2. apply next_quiet.
    - intros i middleware Hi.
      destruct i as [|[|[|[|[|i]]]]]; try lia; simpl; try done; intros [= <-].
      + apply AuthenticationMiddleware_quiet.
      + apply ValidationMiddleware_quiet.
      + apply AuthorizationMiddleware_quiet.
    - intros w0. by rewrite Hhandler. }
  assert (∀ fuel s1 o1 s2,
            1 ≤ PState.index s1 → within_limit (PState.world s1) →
            next fuel s1 = Some (o1, s2) →
            within_limit (PState.world s2) ∧ PState.index s1 ≤ PState.index s2)
    as Hlimiter.
  { intros fuel s1 o1 s2 Hindex Hs1.
    destruct (decide (PState.index s1 = 1)) as [Hone | Hmore];
      [| apply (Hafter (fun stored => ∀ client l, stored !! client = Some l →
                          length l ≤ RateLimitingMiddleware.maxRequests));
         [lia | exact Hs1]].
    destruct fuel as [|fuel]; [done |]. unfold next. rewrite next_S, Hone.
    change (HTTPServer.pipeline HTTPServer.new !! 1)
      with (Some RateLimitingMiddleware.new).
    cbv iota zeta.
    change (execute RateLimitingMiddleware.new request)
      with (RateLimitingMiddleware.execute request).
    fold (next fuel). intros Hexec. split.
    - eapply rate_limiter_keeps_limit; [| | exact Hexec]; [exact Hs1 |].
      simpl. intros s3 o3 s4 Hindex3 Hcall.
      by apply (Hafter (fun stored => stored = World.requests (PState.world s3)))
        in Hcall as [-> _]; [| lia |].
    - transitivity 2; [lia |].
      change 2 with (PState.index (PState.make (PState.world s1) 2
                                     (PState.calls s1 ++ [Invoke 1]))).
      eapply (exec_quiet (fun _ => True) 2); [| | | | exact Hexec]; try done.
      + clear. generalize (RateLimitingMiddleware.execute request).
        intros p. induction p; constructor; auto.
      + intros s3 o3 s4 Hindex3 _ Hcall. split; [done |].
        by apply (Hafter (fun _ => True)) in Hcall as [_ ?]. }
  destruct (MiddlewarePipeline.execute _ _ _ _) as [[[r|e] s0]|] eqn:Hexec; [| | done].
  all: unfold MiddlewarePipeline.execute in Hexec;
    change (length (HTTPServer.pipeline HTTPServer.new)) with 5 in Hexec;
    rewrite next_S in Hexec;
    change (HTTPServer.pipeline HTTPServer.new !! PState.index (PState.make w 0 []))
      with (Some LoggingMiddleware.new) in Hexec;
    cbv iota zeta in Hexec;
    change (execute LoggingMiddleware.new request)
      with (LoggingMiddleware.execute request) in Hexec;
    fold (next 5) in Hexec;
    apply (exec_quiet
             (fun stored => ∀ client l, stored !! client = Some l →
                length l ≤ RateLimitingMiddleware.maxRequests)
             1 _ _ _ _ _ _ (LoggingMiddleware_quiet _ request))
      in Hexec as [Hlimit _];
      [| intros s1 o1 s2; apply (Hlimiter 5) | simpl; lia | exact Hw].
  - by intros [= _ <-].
  - by intros [= _ <-].
Qed.

Lemma served_within_limit w : served w → within_limit w.
Proof.
  induction 1 as [clock user | user w _ IH | request w response s _ IH Hhandled].
  - intros client stored. simpl. by rewrite lookup_empty.
  - exact IH.
  - by eapply handleRequest_keeps_limit.
Qed.


(** C4 (amended). Every execution returns, and the registered handlers it
    invokes are the first ones in the order of registration, whatever the
    request. The route handler runs as soon as every registered handler
    delegates. When every registered handler calls its continuation at most
    once, the record of calls is a row of handlers that each delegate to the
    following one, ended by the first handler that does not delegate or,
    when there is none, by the route handler: the route handler then runs
    only if every registered handler delegates. *)
Theorem handlers_run_in_registration_order (middlewares : list Middleware)
    (request : Request.t) (handler : Handler) (w : World.t) :
  ∃ o s,
    MiddlewarePipeline.execute middlewares request handler w = Some (o, s)
    ∧ (∃ invocations,
         invocations ≤ length middlewares
         ∧ invoked (PState.calls s) = seq 0 invocations)
    ∧ ((∀ i, i < length middlewares → Delegate i ∈ PState.calls s) →
       Terminal ∈ PState.calls s)
    ∧ (Forall follows_contract middlewares →
       ∃ count,
         count ≤ length middlewares
         ∧ PState.calls s
           = delegations 0 count ++ ending (length middlewares) count
         ∧ (Terminal ∈ PState.calls s →
            ∀ i, i < length middlewares → Delegate i ∈ PState.calls s)).
Proof.
  destruct (execute_total middlewares request handler w)
    as (o & s & invocations & Hexec & Hle & Hinv & _).
  exists o, s. split; [exact Hexec |]. split; [by exists invocations |].
  split; [by eapply execute_reaches_terminal |].
  intros Hcontract.
  destruct (execute_chain _ _ _ Hcontract _ _ _ Hexec) as (count & Hcount & Hcalls & Hiff).
  exists count. split; [exact Hcount |]. split; [exact Hcalls |]. apply Hiff.
Qed.

(** C2 (amended). Every execution returns, and no registered handler is
    invoked more than once. A call of a continuation never fails on its
    own account, be it the first or a later one: it is followed at once by
    the invocation of the next registered handler, none of those registered
    before it remaining to be invoked, or, when every registered handler has
    been invoked, by that of the route handler. *)
Theorem registered_handlers_invoked_once (middlewares : list Middleware)
    (request : Request.t) (handler : Handler) (w : World.t) :
  ∃ o s,
    MiddlewarePipeline.execute middlewares request handler w = Some (o, s)
    ∧ NoDup (invoked (PState.calls s))
    ∧ (∀ i, i ∈ invoked (PState.calls s) → i < length middlewares)
    ∧ (∀ before i after,
         PState.calls s = before ++ Delegate i :: after →
         ∃ c rest,
           after = c :: rest
           ∧ invoked before = seq 0 (length (invoked before))
           ∧ ((c = Invoke (length (invoked before))
               ∧ length (invoked before) < length middlewares)
              ∨ (c = Terminal
                 ∧ length middlewares ≤ length (invoked before)))).
Proof.
  destruct (execute_total middlewares request handler w)
    as (o & s & invocations & Hexec & Hle & Hinv & Hans).
  exists o, s. split; [exact Hexec |].
  split; [rewrite Hinv; apply NoDup_seq |]. split.
  - intros i. rewrite Hinv, elem_of_seq. lia.
  - intros before i after Hsplit.
    pose proof (answered_split _ _ _ _ Hans Hsplit) as Hhead.
    destruct after as [|c rest]; [done |]. exists c, rest. split; [done |].
    rewrite Hsplit, invoked_app in Hinv.
    change (invoked (Delegate i :: c :: rest)) with (invoked (c :: rest)) in Hinv.
    assert (length (invoked before) + length (invoked (c :: rest)) = invocations)
      as Hcount.
    { rewrite <- length_app, Hinv. apply length_seq. }
    split.
    { assert (invoked before = take (length (invoked before)) (seq 0 invocations))
        as Hprefix by (by rewrite <- Hinv, take_app_length).
      rewrite Hprefix at 1. rewrite take_seq. f_equal. lia. }
    destruct c as [j | j |]; [| done |].
    + left. simpl in Hinv, Hcount. symmetry in Hinv.
      pose proof (seq_split_next _ _ _ _ Hinv) as ->. split; [done | lia].
    + right. split; [done |].
      pose proof (execute_terminal_when_done _ _ _ _ _ _ Hexec) as Hdone.
      rewrite Hsplit in Hdone. apply terminal_when_done_app in Hdone as [_ Hdone].
      simpl in Hdone. lia.
Qed.

(** C1. On a server that has just been built, [handleRequest] answers the
    request [DELETE /users/123] that carries the token of role [user] with
    the 200 of the route handler, which is invoked: the Authorizer looks up
    the key [DELETE:/users/123], and the entry that requires [admin] is
    registered under [DELETE:/users/:id]. *)
Theorem delete_with_user_token_reaches_handler (clock : nat → Z) :
  ∃ s,
    HTTPServer.handleRequest HTTPServer.new unauthorizedRequest
      (HTTPServer.fresh clock None)
    = Some (Response.make 200
              (JObject [("message", JString "User deleted successfully")]) None,
            s)
    ∧ World.user (PState.world s)
      = Some (Identity.make "user123" "user@example.com" "user")
    ∧ Terminal ∈ PState.calls s
    ∧ AuthorizationMiddleware.permissions !! "DELETE:/users/123" = None
    ∧ AuthorizationMiddleware.permissions !! "DELETE:/users/:id" = Some ["admin"].
Proof.
  set (result := HTTPServer.handleRequest _ _ _). vm_compute in result.
  subst result. eexists. split; [reflexivity |]. simpl.
  split; [done |]. split; [| by vm_compute].
  repeat first [apply list_elem_of_here | apply list_elem_of_further].
Qed.

(** The Authorizer itself refuses a role that the entry found does not
    list, without calling its continuation. *)
Lemma authorizer_forbids permissions request requiredRoles user i next s :
  permissions !! (Request.method request +:+ ":" +:+ Request.path request)
    = Some requiredRoles →
  World.user (PState.world s) = Some user →
  Identity.role user ∉ requiredRoles →
  ∃ w',
    exec i (AuthorizationMiddleware.execute permissions request) next s
    = Some (Ok (Response.make 403
                  (JObject [("error", JString "Insufficient permissions")]) None),
            PState.make w' (PState.index s) (PState.calls s))
    ∧ same_but_console (PState.world s) w'.
Proof.
  intros Hkey Huser Hrole. unfold AuthorizationMiddleware.execute. rewrite Hkey.
  rewrite exec_bind, exec_console_log. cbv beta iota.
  rewrite exec_bind, exec_get_user. cbv beta iota. simpl_world. rewrite Huser.
  rewrite bool_decide_false by done. simpl negb. cbv iota. run_exec.
  eexists. split; [reflexivity | auto].
Qed.

(** C2, counterexample. With [callsNextTwice] as the only registered
    handler the execution returns the response of the route handler, which
    has run twice: the second call of the continuation raised nothing. *)
Lemma second_call_runs_route_handler_again :
  MiddlewarePipeline.execute [callsNextTwice] unauthorizedRequest
    (HTTPServer.respond 200 JNull) (HTTPServer.fresh (fun _ => 0%Z) None)
  = Some (Ok (Response.make 200 JNull None),
          PState.make (HTTPServer.fresh (fun _ => 0%Z) None) 1
            [Invoke 0; Delegate 0; Terminal; Delegate 0; Terminal])
  ∧ ¬ second_call_fails [callsNextTwice] unauthorizedRequest
        (HTTPServer.respond 200 JNull) (HTTPServer.fresh (fun _ => 0%Z) None).
Proof.
  split; [reflexivity |].
  intros Hclaim. destruct (Hclaim _ _ eq_refl) as (Hterminal & _).
  vm_compute in Hterminal. lia.
Qed.

(** C4, counterexample. With [callsNextTwice] registered before
    [refuses], the second call of the continuation finds no registered
    handler left and runs the route handler, although [refuses] has not
    delegated. *)
Lemma terminal_runs_past_refusal :
  MiddlewarePipeline.execute [callsNextTwice; refuses] unauthorizedRequest
    (HTTPServer.respond 200 JNull) (HTTPServer.fresh (fun _ => 0%Z) None)
  = Some (Ok (Response.make 200 JNull None),
          PState.make (HTTPServer.fresh (fun _ => 0%Z) None) 2
            [Invoke 0; Delegate 0; Invoke 1; Delegate 0; Terminal])
  ∧ ¬ terminal_iff_all_delegate [callsNextTwice; refuses] unauthorizedRequest
        (HTTPServer.respond 200 JNull) (HTTPServer.fresh (fun _ => 0%Z) None).
Proof.
  split; [reflexivity |].
  intros Hclaim. destruct (Hclaim _ _ eq_refl) as [Hall _].
  assert (Delegate 1 ∈ [Invoke 0; Delegate 0; Invoke 1; Delegate 0; Terminal])
    as Hin.
  { apply Hall; [| simpl; lia].
    repeat first [apply list_elem_of_here | apply list_elem_of_further]. }
  repeat (apply elem_of_cons in Hin as [[=] | Hin]). by apply elem_of_nil in Hin.
Qed.

(** C3, counterexample. A client has ten requests admitted, then issues
    ten more 59 seconds later, which are answered 429, and another one a
    second after these: ten requests were issued within the trailing
    window, and it is admitted, the window having elapsed for the ten
    requests that were recorded. *)
Lemma rejected_requests_do_not_count :
  drop 10 (issues forwardedRequest 21 (start burst))
  = [(59020, 429); (59021, 429); (59022, 429); (59023, 429); (59024, 429);
     (59025, 429); (59026, 429); (59027, 429); (59028, 429); (59029, 429);
     (60050, 204)]%Z
  ∧ ¬ issued_within_window_rejected (issues forwardedRequest 21 (start burst)).
Proof.
  split; [by vm_compute |].
  intros Hclaim.
  assert (204 = 429)%Z as Hstatus; [| discriminate Hstatus].
  apply (Hclaim 20 60050%Z); [by vm_compute |].
  vm_compute. lia.
Qed.


(** ** The theorems at concrete inputs *)

Lemma authenticator_rejects_witness :
  (∃ r s', exec 0 (AuthenticationMiddleware.execute noHeaderRequest) stop
             (start justBuilt) = Some (Ok r, s')
           ∧ Response.status r = 401%Z)
  ∧ (∃ r s', exec 0 (AuthenticationMiddleware.execute expiredTokenRequest) stop
               (start justBuilt) = Some (Ok r, s')
             ∧ Response.body r = JObject [("error", JString "Invalid token")]).
Proof.
  split.
  - destruct (proj1 (authenticator_rejects noHeaderRequest 0 stop (start justBuilt)))
      as (w' & Hexec & _).
    + left. reflexivity.
    + eauto.
  - destruct (proj2 (authenticator_rejects expiredTokenRequest 0 stop (start justBuilt))
                "Bearer expired-token" {| message := "Invalid token" |})
      as (w' & Hexec & _); [reflexivity.. |].
    eauto.
Defined.

Lemma undeclared_route_fail_open_witness :
  (∃ s', exec 3 (ValidationMiddleware.execute ValidationMiddleware.schemas
                   unauthorizedRequest) finish (start justBuilt)
         = finish s')
  ∧ (∃ s', exec 4 (AuthorizationMiddleware.execute AuthorizationMiddleware.permissions
                     unauthorizedRequest) finish (start justBuilt)
           = finish s').
Proof.
  pose proof (undeclared_route_fail_open ValidationMiddleware.schemas
                AuthorizationMiddleware.permissions unauthorizedRequest) as Hopen.
  split.
  - destruct (proj1 (Hopen 3 finish (start justBuilt))) as (w' & Hexec & _);
      [reflexivity | eauto].
  - destruct (proj2 (Hopen 4 finish (start justBuilt))) as (w' & Hexec & _);
      [reflexivity | eauto].
Defined.



Lemma unknown_route_not_found_witness :
  HTTPServer.handleRequest HTTPServer.new unknownRouteRequest justBuilt
  = Some (Response.make 404 (JObject [("error", JString "Route not found")]) None,
          PState.make justBuilt 0 []).
Proof. apply unknown_route_not_found. reflexivity. Defined.

Lemma rate_limit_window_witness :
  (∃ r s', exec 1 (RateLimitingMiddleware.execute forwardedRequest) stop
             (repeated forwardedRequest 10 (start justBuilt) ∅).1
           = Some (Ok r, s')
           ∧ Response.status r = 429%Z
           ∧ Response.headers r = Some {["Retry-After" := "60"]})
  ∧ (∃ s', exec 1 (RateLimitingMiddleware.execute forwardedRequest) finish
             (repeated forwardedRequest 20 (start burst) ∅).1
           = finish s'
           ∧ storedFor "10.0.0.7" (PState.world s') = [60051%Z]).
Proof.
  split.
  - destruct (rate_limit_window
                (repeated forwardedRequest 10 (start justBuilt) ∅).2
                forwardedRequest 1 stop
                (repeated forwardedRequest 10 (start justBuilt) ∅).1)
      as (Hfull & _).
    + apply repeated_history, history_start.
    + assert (World.clock
                (PState.world (repeated forwardedRequest 10 (start justBuilt) ∅).1)
              = fun n => (1000 * Z.of_nat n)%Z) as -> by (vm_compute; reflexivity).
      intros k. lia.
    + destruct Hfull as (w' & Hexec & _); [vm_compute; lia |].
      eexists _, _. split; [exact Hexec |]. split; reflexivity.
  - destruct (rate_limit_window
                (repeated forwardedRequest 20 (start burst) ∅).2
                forwardedRequest 1 finish
                (repeated forwardedRequest 20 (start burst) ∅).1)
      as (_ & _ & Helapsed).
    + apply repeated_history, history_start.
    + assert (World.clock
                (PState.world (repeated forwardedRequest 20 (start burst) ∅).1)
              = burstClock) as -> by (vm_compute; reflexivity).
      intros k. unfold burstClock.
      repeat match goal with
             | |- context [?a <? ?b] => destruct (Nat.ltb_spec a b)
             end; lia.
    + destruct Helapsed as (w' & Hexec & Hstored).
      * assert (default [] ((repeated forwardedRequest 20 (start burst) ∅).2
                            !! clientOf forwardedRequest
                                 (PState.world
                                    (repeated forwardedRequest 20 (start burst) ∅).1))
                = [1; 3; 5; 7; 9; 11; 13; 15; 17; 19]%Z) as ->
          by (vm_compute; reflexivity).
        repeat constructor; vm_compute; discriminate.
      * eexists. split; [exact Hexec | exact Hstored].
Defined.


Lemma handlers_run_in_registration_order_witness :
  ∃ o s, MiddlewarePipeline.execute HTTPServer.setupMiddleware validRequest
           (HTTPServer.respond 201 JNull) justBuilt = Some (o, s)
         ∧ (Terminal ∈ PState.calls s
            → ∀ i, i < 5 → Delegate i ∈ PState.calls s).
Proof.
  destruct (handlers_run_in_registration_order HTTPServer.setupMiddleware
              validRequest (HTTPServer.respond 201 JNull) justBuilt)
    as (o & s & Hexec & _ & _ & Hchain).
  destruct (Hchain setupMiddleware_contract) as (count & _ & _ & Honly).
  exists o, s. split; [exact Hexec | exact Honly].
Defined.

(** * Further properties *)

Set Warnings "-clear-no-such-hyp".

(** ** Handlers taken one by one *)

Lemma exec_try_catch {A : Type} i (p : Prog A) h next s :
  exec i (try_catch p h) next s =
  match exec i p next s with
  | Some (Thrown e, s') => exec i (h e) next s'
  | other => other
  end.
Proof.
  revert s. induction p as [a|e|k IH|w k IH|k IH]; intros s; simpl; auto.
  destruct (next _) as [[o s']|]; [apply IH | done].
Qed.

Lemma logging_exec (request : Request.t) (i : nat)
    (next : Continuation) (s : PState.t) :
  ∃ w0,
    same_but_log (PState.world s) w0
    ∧ ∀ o s1,
        next (PState.make w0 (PState.index s) (PState.calls s ++ [Delegate i]))
        = Some (o, s1) →
        ∃ w1,
          exec i (LoggingMiddleware.execute request) next s
          = Some (o, PState.make w1 (PState.index s1) (PState.calls s1))
          ∧ same_but_log (PState.world s1) w1.
Proof.
  unfold LoggingMiddleware.execute.
  rewrite exec_bind, exec_Date_now. cbv beta iota zeta.
  rewrite exec_bind, exec_console_log. cbv beta iota. simpl_world.
  rewrite exec_try_catch, exec_bind, exec_await_next. simpl_world.
  eexists. split; last first.
  - intros o s1 ->.
    destruct o as [response | error]; cbv beta iota; run_exec.
    + eexists. split; [reflexivity |]. by repeat split.
    + eexists. split; [reflexivity |]. by repeat split.
  - by repeat split.
Qed.

(** [LoggingMiddleware] is transparent: it calls its continuation once, on
    a store that differs from the one it received by the log only, and what
    the continuation returns or throws is what it returns or throws, the
    store changing by the log only once more. *)
Theorem logging_is_transparent (request : Request.t) (i : nat)
    (next : Continuation) (s : PState.t) :
  ∃ w0,
    same_but_log (PState.world s) w0
    ∧ ∀ o s1,
        next (PState.make w0 (PState.index s) (PState.calls s ++ [Delegate i]))
        = Some (o, s1) →
        ∃ w1,
          exec i (LoggingMiddleware.execute request) next s
          = Some (o, PState.make w1 (PState.index s1) (PState.calls s1))
          ∧ same_but_log (PState.world s1) w1.
Proof. apply logging_exec. Qed.

Lemma authenticator_exec request h user i (next : Continuation) s :
  Request.headers request !! "authorization" = Some h →
  String.prefix "Bearer " h = true →
  AuthenticationMiddleware.verifyToken (String.substring 7 (String.length h - 7) h)
    = Ret user →
  ∃ w0,
    World.user w0 = Some user
    ∧ World.requests w0 = World.requests (PState.world s)
    ∧ World.clock w0 = World.clock (PState.world s)
    ∧ World.ticks w0 = World.ticks (PState.world s)
    ∧ exec i (AuthenticationMiddleware.execute request) next s
      = match next (PState.make w0 (PState.index s)
                      (PState.calls s ++ [Delegate i])) with
        | Some (Ok response, s1) => Some (Ok response, s1)
        | Some (Thrown error, s1) =>
            Some (Ok (Response.make 401
                        (JObject [("error", JString "Invalid token")]) None), s1)
        | None => None
        end.
Proof.
  intros Hh Hpre Hver.
  assert (AuthenticationMiddleware.rejects_header (Some h) = false) as Hrej.
  { simpl. rewrite Hpre. by destruct h. }
  unfold AuthenticationMiddleware.execute. rewrite Hh, Hrej. simpl default.
  rewrite Hver. rewrite exec_bind, exec_console_log. cbv beta iota.
  rewrite exec_try_catch.
  change (Ret user ≫= ?f) with (f user). cbv beta.
  rewrite exec_bind, exec_set_user. cbv beta iota zeta.
  rewrite exec_bind, exec_console_log. cbv beta iota.
  rewrite exec_await_next. simpl_world.
  match goal with |- context [next (PState.make ?w _ _)] => exists w end.
  repeat (split; [reflexivity |]).
  by destruct (next _) as [[[response | error] s1]|].
Qed.

(** A header [Bearer <token>] whose token verifies makes the Authenticator
    attach the identity of the token to the request, one of the two that
    [verifyToken] knows, before it calls its continuation once; a response
    of the continuation is returned as it is. *)
Theorem authenticator_attaches_identity (request : Request.t) (h : string)
    (user : Identity.t) (i : nat) (next : Continuation) (s : PState.t) :
  Request.headers request !! "authorization" = Some h →
  String.prefix "Bearer " h = true →
  AuthenticationMiddleware.verifyToken (String.substring 7 (String.length h - 7) h)
    = Ret user →
  (user = Identity.make "user123" "user@example.com" "user"
   ∨ user = Identity.make "admin123" "admin@example.com" "admin")
  ∧ ∃ w0,
      World.user w0 = Some user
      ∧ World.requests w0 = World.requests (PState.world s)
      ∧ ∀ response s1,
          next (PState.make w0 (PState.index s) (PState.calls s ++ [Delegate i]))
          = Some (Ok response, s1) →
          exec i (AuthenticationMiddleware.execute request) next s
          = Some (Ok response, s1).
Proof.
  intros Hh Hpre Hver. split.
  - revert Hver. unfold AuthenticationMiddleware.verifyToken.
    repeat case_match; intros [= <-]; auto.
  - destruct (authenticator_exec request h user i next s Hh Hpre Hver)
      as (w0 & Huser & Hreq & _ & _ & Hexec).
    exists w0. split; [done |]. split; [done |].
    intros response s1 Hnext. by rewrite Hexec, Hnext.
Qed.

(** The [try] of the Authenticator encloses the call of its continuation:
    an error thrown by any later handler or by the route handler does not
    propagate, it is answered 401 with the message [Invalid token]. *)
Theorem authenticator_masks_errors (request : Request.t) (h : string)
    (user : Identity.t) (i : nat) (next : Continuation) (s : PState.t) :
  Request.headers request !! "authorization" = Some h →
  String.prefix "Bearer " h = true →
  AuthenticationMiddleware.verifyToken (String.substring 7 (String.length h - 7) h)
    = Ret user →
  ∃ w0,
    World.user w0 = Some user
    ∧ ∀ error s1,
        next (PState.make w0 (PState.index s) (PState.calls s ++ [Delegate i]))
        = Some (Thrown error, s1) →
        exec i (AuthenticationMiddleware.execute request) next s
        = Some (Ok (Response.make 401
                      (JObject [("error", JString "Invalid token")]) None), s1).
Proof.
  intros Hh Hpre Hver.
  destruct (authenticator_exec request h user i next s Hh Hpre Hver)
    as (w0 & Huser & _ & _ & _ & Hexec).
  exists w0. split; [done |]. intros error s1 Hnext. by rewrite Hexec, Hnext.
Qed.

(** With an entry for the route, the Authorizer answers 401 when no
    identity is attached and 403 when the role of the attached identity is
    not listed, in both cases without calling its continuation; when the
    role is listed it calls its continuation and returns what it returns. *)
Theorem authorizer_decides (permissions : gmap string (list string))
    (request : Request.t) (requiredRoles : list string) (i : nat)
    (next : Continuation) (s : PState.t) :
  permissions !! (Request.method request +:+ ":" +:+ Request.path request)
    = Some requiredRoles →
  ∃ w',
    same_but_console (PState.world s) w'
    ∧ exec i (AuthorizationMiddleware.execute permissions request) next s
      = match World.user (PState.world s) with
        | None =>
            Some (Ok (Response.make 401
                        (JObject [("error", JString "Authentication required")])
                        None),
                  PState.make w' (PState.index s) (PState.calls s))
        | Some user =>
            if bool_decide (Identity.role user ∈ requiredRoles)
            then next (PState.make w' (PState.index s)
                         (PState.calls s ++ [Delegate i]))
            else Some (Ok (Response.make 403
                             (JObject [("error", JString "Insufficient permissions")])
                             None),
                       PState.make w' (PState.index s) (PState.calls s))
        end.
Proof.
  intros Hkey. unfold AuthorizationMiddleware.execute. rewrite Hkey.
  rewrite exec_bind, exec_console_log. cbv beta iota.
  rewrite exec_bind, exec_get_user. cbv beta iota. simpl_world.
  destruct (World.user (PState.world s)) as [user|].
  - destruct (bool_decide (Identity.role user ∈ requiredRoles)); simpl negb;
      cbv iota; run_exec; (eexists; split; [| reflexivity]; auto).
  - run_exec. eexists. split; [| reflexivity]. auto.
Qed.

(** The client under which the limiter counts a request is never the empty
    string: the [id] of the attached identity unless it is empty, else the
    header [x-forwarded-for] unless it is absent or empty, else
    [unknown]. *)
Theorem client_id_never_empty (request : Request.t) (i : nat)
    (next : Continuation) (s : PState.t) :
  ∃ client,
    exec i (RateLimitingMiddleware.getClientId request) next s = Some (Ok client, s)
    ∧ client ≠ ""
    ∧ (∀ user, World.user (PState.world s) = Some user →
         Identity.id user ≠ "" → client = Identity.id user)
    ∧ ((World.user (PState.world s) = None
        ∨ ∃ user, World.user (PState.world s) = Some user ∧ Identity.id user = "") →
       (∀ forwarded,
          Request.headers request !! "x-forwarded-for" = Some forwarded →
          forwarded ≠ "" → client = forwarded)
       ∧ ((Request.headers request !! "x-forwarded-for" = None
           ∨ Request.headers request !! "x-forwarded-for" = Some "") →
          client = "unknown")).
Proof.
  exists (clientOf request (PState.world s)).
  split; [apply exec_getClientId |]. unfold clientOf, RateLimitingMiddleware.js_or.
  destruct (World.user (PState.world s)) as [user|];
    destruct (Request.headers request !! "x-forwarded-for") as [forwarded|];
    cbn; repeat case_match;
    repeat match goal with
           | H : String.eqb _ _ = true |- _ => apply String.eqb_eq in H
           | H : String.eqb _ _ = false |- _ => apply String.eqb_neq in H
           end;
    naive_solver.
Qed.

(** ** [ValidationMiddleware]: what is and is not checked *)

(** Only the declared fields of a body are read: two requests whose
    bodies agree on every field that the schema declares get the same
    errors, whatever else the bodies hold. *)
Theorem undeclared_fields_ignored (request1 request2 : Request.t)
    (schema : Schema.t) :
  (∀ entries field rules,
     Schema.body schema = Some entries → (field, rules) ∈ entries →
     js_get_opt (Request.body request1) field
     = js_get_opt (Request.body request2) field) →
  ValidationMiddleware.validateRequest request1 schema
  = ValidationMiddleware.validateRequest request2 schema.
Proof.
  destruct schema as [[entries|]]; [| done]. intros Hsame.
  rewrite !validateRequest_all_fields. f_equal.
  apply list_fmap_ext. intros k [field rules] Hk. unfold fieldErrors. simpl.
  by rewrite (Hsame entries field rules eq_refl (list_elem_of_lookup_2 _ _ _ Hk)).
Qed.

(** When every declared field is [undefined] or [null] in the body, as
    with a body that is itself missing, the errors are the [is required]
    messages of the required fields, in the order of declaration: the
    optional fields pass without any check. *)
Theorem missing_body_reports_required_fields (request : Request.t)
    (entries : list (string * Rules.t)) :
  (∀ field rules, (field, rules) ∈ entries →
     is_nullish (js_get_opt (Request.body request) field) = true) →
  ValidationMiddleware.validateRequest request (Schema.make (Some entries))
  = omap requiredError entries.
Proof.
  rewrite validateRequest_all_fields.
  induction entries as [|[field rules] entries IH]; intros Hmissing; [done |].
  rewrite fmap_cons, concat_cons.
  rewrite IH by (intros f r Hin; apply (Hmissing f r); by apply list_elem_of_further).
  pose proof (Hmissing field rules (list_elem_of_here _ _)) as Hnull.
  unfold fieldErrors, ValidationMiddleware.validateField. simpl.
  unfold requiredError at 2. simpl. rewrite Hnull.
  by destruct (Rules.required rules).
Qed.

(** A floor of zero is not enforced: [rules.min && ...] and
    [rules.minLength && ...] skip the comparison when the floor is [0], so
    that [min: 0] lets negative numbers through, exactly as if the rule
    were not written. *)
Theorem zero_floor_not_enforced (field : string) (value : JsValue)
    (required : bool) (type : string) (minLength min : option Z) :
  ValidationMiddleware.validateField field value
    (Rules.make required type (Some 0%Z) min)
  = ValidationMiddleware.validateField field value
      (Rules.make required type None min)
  ∧ ValidationMiddleware.validateField field value
      (Rules.make required type minLength (Some 0%Z))
    = ValidationMiddleware.validateField field value
        (Rules.make required type minLength None)
  ∧ ∀ n : Z,
      ValidationMiddleware.validateField field (JNumber n)
        (Rules.make required "number" None (Some 0%Z)) = [].
Proof.
  split; [done |]. split; [done |]. intros n.
  unfold ValidationMiddleware.validateField. simpl. by rewrite andb_false_r.
Qed.

Lemma split_at_sign_spec l localPart domain :
  split_at_sign l = Some (localPart, domain) →
  l = localPart ++ "@"%char :: domain.
Proof.
  revert localPart. induction l as [|c l IH]; intros localPart; [done |]. simpl.
  destruct (Ascii.eqb_spec c "@") as [-> | Hc]; [by intros [= <- <-] |].
  destruct (split_at_sign l) as [[a b]|]; [| done].
  intros [= <- <-]. simpl. f_equal. by apply IH.
Qed.

Lemma split_at_sign_plain localPart domain :
  forallb is_plain localPart = true →
  split_at_sign (localPart ++ "@"%char :: domain) = Some (localPart, domain).
Proof.
  induction localPart as [|c localPart IH]; [done |]. simpl.
  intros [Hc Hrest]%andb_true_iff. rewrite (IH Hrest).
  destruct (Ascii.eqb_spec c "@") as [-> | _]; [| done].
  by vm_compute in Hc.
Qed.

Lemma removelast_snoc {A : Type} (l : list A) :
  l ≠ [] → ∃ x, l = removelast l ++ [x].
Proof.
  intros Hl. destruct (exists_last Hl) as (l' & x & ->).
  exists x. by rewrite removelast_last.
Qed.

Lemma ascii_only_no_wide_space text :
  ascii_only text = true →
  has_wide_space (String.list_ascii_of_string text) = false.
Proof.
  unfold ascii_only. generalize (String.list_ascii_of_string text). clear text.
  induction l as [|c1 l IH]; [done |].
  intros [Hc Hl]%andb_true_iff. apply Nat.ltb_lt in Hc.
  assert (∀ k, 128 ≤ k → (Ascii.nat_of_ascii c1 =? k) = false) as Hne
    by (intros k Hk; apply Nat.eqb_neq; lia).
  cbn [has_wide_space]. rewrite (IH Hl), orb_false_r.
  destruct l as [|c2 [|c3 l]]; [done | |]; unfold wide_space2, wide_space3;
    cbv zeta; by rewrite !Hne by lia.
Qed.

(** [isValidEmail] accepts a string of characters below 128 exactly when
    it has the shape [local@name.tld]: three non-empty parts without white
    space or [@]. *)
Theorem isValidEmail_shape (email : string) :
  ascii_only email = true →
  ValidationMiddleware.isValidEmail (JString email) = true
  ↔ email_shaped (String.list_ascii_of_string email).
Proof.
  intros Hascii%ascii_only_no_wide_space.
  unfold ValidationMiddleware.isValidEmail, email_shaped. simpl js_to_string.
  cbv zeta. rewrite Hascii. simpl negb. clear Hascii.
  set (l := String.list_ascii_of_string email). clearbody l.
  transitivity
    (match split_at_sign l with
     | Some (localPart, domain) =>
         negb (bool_decide (localPart = []))
         && forallb is_plain localPart
         && forallb is_plain domain
         && match domain with
            | [] => false
            | _ :: rest => existsb (fun c => Ascii.eqb c ".") (removelast rest)
            end
     | None => false
     end = true).
  { destruct (split_at_sign l) as [[localPart domain]|]; [| done].
    by rewrite andb_true_r. }
  split.
  - destruct (split_at_sign l) as [[localPart domain]|] eqn:Hsplit; [| done].
    apply split_at_sign_spec in Hsplit as ->.
    rewrite !andb_true_iff, negb_true_iff, bool_decide_eq_false.
    intros [[[Hlocal Hplain] Hdomain] Hdot].
    destruct domain as [|c rest]; [done |].
    apply existsb_exists in Hdot as (dot & Hin & Hdot).
    apply Ascii.eqb_eq in Hdot as ->.
    apply in_split in Hin as (m1 & m2 & Hmid).
    destruct (removelast_snoc rest) as (x & Hrest).
    { intros ->. by destruct m1. }
    exists localPart, (c :: m1), (m2 ++ [x]).
    rewrite Hrest, Hmid in Hdomain |- *.
    split; [by rewrite <- !app_assoc |].
    split; [done |]. split; [done |]. split; [by destruct m2 |].
    split; [done |].
    simpl in Hdomain. rewrite !forallb_app in Hdomain. simpl in Hdomain.
    rewrite !andb_true_iff in Hdomain.
    destruct Hdomain as (Hc & (Hm1 & Hm2) & Hx & _).
    split; [simpl; by rewrite Hc, Hm1 |].
    rewrite forallb_app. simpl. by rewrite Hm2, Hx.
  - intros (localPart & name & tld & -> & Hlocal & Hname & Htld & Hl & Hn & Ht).
    rewrite (split_at_sign_plain _ _ Hl).
    rewrite !andb_true_iff, negb_true_iff, bool_decide_eq_false.
    split; [split; [split; [done | done] |] |].
    + rewrite forallb_app. simpl. by rewrite Hn, Ht.
    + destruct name as [|c name]; [done |]. simpl.
      destruct (exists_last Htld) as (tld' & x & ->).
      replace (name ++ "."%char :: tld' ++ [x])
        with ((name ++ "."%char :: tld') ++ [x]) by (by rewrite <- app_assoc).
      rewrite removelast_last, existsb_app. simpl. by rewrite orb_true_r.
Qed.

(** ** The pipeline of [HTTPServer] as a whole *)

Lemma rejects_header_false authHeader :
  AuthenticationMiddleware.rejects_header authHeader = false →
  ∃ h, authHeader = Some h ∧ String.prefix "Bearer " h = true.
Proof.
  destruct authHeader as [h|]; [| done]. simpl.
  intros [_ Hpre%negb_false_iff]%orb_false_iff. by exists h.
Qed.

Lemma authenticator_answers request i (next : Continuation) s :
  (∀ s1, PState.index s1 = PState.index s → is_Some (next s1)) →
  ∃ response s',
    exec i (AuthenticationMiddleware.execute request) next s
    = Some (Ok response, s').
Proof.
  intros Hnext.
  destruct (AuthenticationMiddleware.rejects_header
              (Request.headers request !! "authorization")) eqn:Hrej.
  - unfold AuthenticationMiddleware.execute. rewrite Hrej. run_exec. eauto.
  - destruct (rejects_header_false _ Hrej) as (h & Hh & Hpre).
    destruct (verifyToken_cases (String.substring 7 (String.length h - 7) h))
      as [[user Hver] | Hver].
    + destruct (authenticator_exec request h user i next s Hh Hpre Hver)
        as (w0 & _ & _ & _ & _ & ->).
      destruct (Hnext (PState.make w0 (PState.index s)
                         (PState.calls s ++ [Delegate i])))
        as [[[response | error] s1] ->]; [done | eauto..].
    + unfold AuthenticationMiddleware.execute. rewrite Hrej, Hh. simpl default.
      rewrite Hver. rewrite exec_bind, exec_console_log. cbv beta iota.
      simpl. eauto.
Qed.

Lemma setup_pipeline_answers request handler fuel s :
  5 < PState.index s + fuel →
  PState.index s ≤ 2 →
  ∃ response s',
    MiddlewarePipeline.next HTTPServer.setupMiddleware request handler fuel s
    = Some (Ok response, s').
Proof.
  intros Hfuel Hindex.
  assert (∀ fuel1 s1, 5 - PState.index s1 < fuel1 →
            is_Some (MiddlewarePipeline.next HTTPServer.setupMiddleware request
                       handler fuel1 s1)) as Htotal.
  { intros fuel1 s1 Hfuel1.
    destruct (next_proceeds HTTPServer.setupMiddleware request handler fuel1
                (PState.index s1)) with (s := s1)
      as (o & s2 & run & -> & _);
      [| done | done].
    replace (length HTTPServer.setupMiddleware) with 5 by reflexivity. lia. }
  assert (∀ fuel1 s1, PState.index s1 = 2 → 5 < 2 + fuel1 →
            ∃ response s',
              MiddlewarePipeline.next HTTPServer.setupMiddleware request handler
                fuel1 s1 = Some (Ok response, s')) as Hauth.
  { intros [|fuel1] s1 Hs1 Hfuel1; [lia |]. rewrite next_S, Hs1.
    change (HTTPServer.setupMiddleware !! 2) with (Some AuthenticationMiddleware.new).
    cbv iota zeta. apply authenticator_answers. simpl.
    intros s2 Hs2. apply Htotal. lia. }
  assert (∀ fuel1 s1, PState.index s1 = 1 → 5 < 1 + fuel1 →
            ∃ response s',
              MiddlewarePipeline.next HTTPServer.setupMiddleware request handler
                fuel1 s1 = Some (Ok response, s')) as Hlimit.
  { intros [|fuel1] s1 Hs1 Hfuel1; [lia |]. rewrite next_S, Hs1.
    change (HTTPServer.setupMiddleware !! 1) with (Some RateLimitingMiddleware.new).
    cbv iota zeta.
    change (execute RateLimitingMiddleware.new request)
      with (RateLimitingMiddleware.execute request).
    set (s0 := PState.make (PState.world s1) 2 (PState.calls s1 ++ [Invoke 1])).
    set (valid := inWindow (World.clock (PState.world s0) (World.ticks (PState.world s0)))
                    (storedFor (clientOf request (PState.world s0)) (PState.world s0))).
    destruct (decide (RateLimitingMiddleware.maxRequests ≤ length valid)) as [Hfull | Hroom].
    - destruct (rate_limiter_rejects request 1 (MiddlewarePipeline.next
                  HTTPServer.setupMiddleware request handler fuel1) s0 Hfull)
        as (w' & -> & _). eauto.
    - destruct (rate_limiter_admits request 1 (MiddlewarePipeline.next
                  HTTPServer.setupMiddleware request handler fuel1) s0)
        as (w' & -> & _); [fold valid; lia |].
      apply Hauth; [done | lia]. }
  destruct (decide (PState.index s = 2)) as [Htwo | Hnot2]; [apply Hauth; [done | lia] |].
  destruct (decide (PState.index s = 1)) as [Hone | Hnot1]; [apply Hlimit; [done | lia] |].
  assert (PState.index s = 0) as Hzero by lia.
  destruct fuel as [|fuel]; [lia |]. rewrite next_S, Hzero.
  change (HTTPServer.setupMiddleware !! 0) with (Some LoggingMiddleware.new).
  cbv iota zeta.
  change (execute LoggingMiddleware.new request)
    with (LoggingMiddleware.execute request).
  destruct (logging_exec request 0
              (MiddlewarePipeline.next HTTPServer.setupMiddleware request handler fuel)
              (PState.make (PState.world s) 1 (PState.calls s ++ [Invoke 0])))
    as (w0 & _ & Hlog).
  destruct (Hlimit fuel (PState.make w0 1 ((PState.calls s ++ [Invoke 0]) ++ [Delegate 0])))
    as (response & s1 & Hnext); [done | lia |].
  destruct (Hlog _ _ Hnext) as (w1 & -> & _). eauto.
Qed.

(** For a request that arrives without a [user], the pipeline that
    [setupMiddleware] builds never throws, whatever the route handler does:
    an error thrown behind the Authenticator is answered by it, so that the
    [catch] of [handleRequest], and its status 500, are never reached. (A
    [user] that the caller attaches is typed [any]: one whose [id] cannot be
    put in a message makes the limiter throw, before the [try] of the
    Authenticator.) *)
Theorem server_pipeline_never_throws (request : Request.t) (handler : Handler)
    (routes : gmap string Handler) (w : World.t) :
  World.user w = None →
  (∃ response s,
     MiddlewarePipeline.execute HTTPServer.setupMiddleware request handler w
     = Some (Ok response, s))
  ∧ (routes !! (Request.method request +:+ ":" +:+ Request.path request)
       = Some handler →
     ∃ response s,
       MiddlewarePipeline.execute HTTPServer.setupMiddleware request handler w
       = Some (Ok response, s)
       ∧ HTTPServer.handleRequest (HTTPServer.make HTTPServer.setupMiddleware routes)
           request w = Some (response, s)).
Proof.
  intros _.
  destruct (setup_pipeline_answers request handler 6 (PState.make w 0 []))
    as (response & s & Hexec); [simpl; lia.. |].
  split; [by exists response, s |]. intros Hroute.
  exists response, s. split; [exact Hexec |].
  unfold HTTPServer.handleRequest. simpl HTTPServer.routes. rewrite Hroute.
  simpl HTTPServer.pipeline.
  unfold MiddlewarePipeline.execute in *.
  change (length HTTPServer.setupMiddleware) with 5. by rewrite Hexec.
Qed.

Lemma validator_open schemas request i (next : Continuation) s :
  schemas !! (Request.method request +:+ ":" +:+ Request.path request) = None →
  ∃ w', same_but_console (PState.world s) w'
    ∧ exec i (ValidationMiddleware.execute schemas request) next s
      = next (PState.make w' (PState.index s) (PState.calls s ++ [Delegate i])).
Proof.
  intros Hkey. unfold ValidationMiddleware.execute. rewrite Hkey. run_exec.
  eexists. split; [| reflexivity]. auto.
Qed.

Lemma authorizer_exec permissions request requiredRoles i (next : Continuation) s :
  permissions !! (Request.method request +:+ ":" +:+ Request.path request)
    = Some requiredRoles →
  ∃ w',
    same_but_console (PState.world s) w'
    ∧ exec i (AuthorizationMiddleware.execute permissions request) next s
      = match World.user (PState.world s) with
        | None =>
            Some (Ok (Response.make 401
                        (JObject [("error", JString "Authentication required")])
                        None),
                  PState.make w' (PState.index s) (PState.calls s))
        | Some user =>
            if bool_decide (Identity.role user ∈ requiredRoles)
            then next (PState.make w' (PState.index s)
                         (PState.calls s ++ [Delegate i]))
            else Some (Ok (Response.make 403
                             (JObject [("error", JString "Insufficient permissions")])
                             None),
                       PState.make w' (PState.index s) (PState.calls s))
        end.
Proof.
  intros Hkey. unfold AuthorizationMiddleware.execute. rewrite Hkey.
  rewrite exec_bind, exec_console_log. cbv beta iota.
  rewrite exec_bind, exec_get_user. cbv beta iota. simpl_world.
  destruct (World.user (PState.world s)) as [user|].
  - destruct (bool_decide (Identity.role user ∈ requiredRoles)); simpl negb;
      cbv iota; run_exec; (eexists; split; [| reflexivity]; auto).
  - run_exec. eexists. split; [| reflexivity]. auto.
Qed.

Lemma authorizer_open permissions request i (next : Continuation) s :
  permissions !! (Request.method request +:+ ":" +:+ Request.path request) = None →
  ∃ w', same_but_console (PState.world s) w'
    ∧ exec i (AuthorizationMiddleware.execute permissions request) next s
      = next (PState.make w' (PState.index s) (PState.calls s ++ [Delegate i])).
Proof.
  intros Hkey. unfold AuthorizationMiddleware.execute. rewrite Hkey. run_exec.
  eexists. split; [| reflexivity]. auto.
Qed.

Lemma verifyToken_role token user :
  AuthenticationMiddleware.verifyToken token = Ret user →
  Identity.role user ∈ ["user"; "admin"].
Proof.
  unfold AuthenticationMiddleware.verifyToken.
  repeat case_match; intros [= <-]; simpl;
    repeat first [apply list_elem_of_here | apply list_elem_of_further].
Qed.

Section NewServer.

Variables (request : Request.t) (status : Z) (body : JsValue).

Let handler : Handler := HTTPServer.respond status body.
Let key : string := Request.method request +:+ ":" +:+ Request.path request.
Let next := MiddlewarePipeline.next HTTPServer.setupMiddleware request handler.

Hypothesis open_or_both :
  AuthorizationMiddleware.permissions !! key = None
  ∨ AuthorizationMiddleware.permissions !! key = Some ["user"; "admin"].

Lemma new_server_route fuel s :
  PState.index s = 5 → 0 < fuel →
  ∃ response s',
    next fuel s = Some (Ok response, s') ∧ Response.status response = status.
Proof using Type.
  intros Hs Hfuel. destruct fuel as [|fuel]; [lia |].
  unfold next. rewrite next_S, Hs.
  change (HTTPServer.setupMiddleware !! 5) with (@None Middleware).
  cbv iota. unfold handler, HTTPServer.respond. eauto.
Qed.

Lemma new_server_authorizer fuel s user :
  PState.index s = 4 → 1 < fuel →
  World.user (PState.world s) = Some user →
  Identity.role user ∈ ["user"; "admin"] →
  ∃ response s',
    next fuel s = Some (Ok response, s') ∧ Response.status response = status.
Proof using open_or_both.
  intros Hs Hfuel Huser Hrole. destruct fuel as [|fuel]; [lia |].
  unfold next. rewrite next_S, Hs.
  change (HTTPServer.setupMiddleware !! 4) with (Some AuthorizationMiddleware.new).
  cbv iota zeta.
  change (execute AuthorizationMiddleware.new request)
    with (AuthorizationMiddleware.execute AuthorizationMiddleware.permissions request).
  fold (next fuel).
  destruct open_or_both as [Hopen | Hboth].
  - destruct (authorizer_open _ request 4 (next fuel)
                (PState.make (PState.world s) 5 (PState.calls s ++ [Invoke 4])) Hopen)
      as (w' & _ & ->).
    apply new_server_route; [done | lia].
  - destruct (authorizer_exec _ request _ 4 (next fuel)
                (PState.make (PState.world s) 5 (PState.calls s ++ [Invoke 4])) Hboth)
      as (w' & _ & ->).
    simpl_world. rewrite Huser, bool_decide_true by done.
    apply new_server_route; [done | lia].
Qed.

Lemma new_server_validator fuel s user :
  PState.index s = 3 → 2 < fuel →
  World.user (PState.world s) = Some user →
  Identity.role user ∈ ["user"; "admin"] →
  ∃ response s',
    next fuel s = Some (Ok response, s')
    ∧ Response.status response ∈ [status; 400%Z].
Proof using open_or_both.
  intros Hs Hfuel Huser Hrole. destruct fuel as [|fuel]; [lia |].
  unfold next. rewrite next_S, Hs.
  change (HTTPServer.setupMiddleware !! 3) with (Some ValidationMiddleware.new).
  cbv iota zeta.
  change (execute ValidationMiddleware.new request)
    with (ValidationMiddleware.execute ValidationMiddleware.schemas request).
  fold (next fuel).
  set (s0 := PState.make (PState.world s) 4 (PState.calls s ++ [Invoke 3])).
  assert (∀ w', same_but_console (PState.world s0) w' →
            ∃ response s',
              next fuel (PState.make w' 4 (PState.calls s0 ++ [Delegate 3]))
              = Some (Ok response, s')
              ∧ Response.status response ∈ [status; 400%Z]) as Hpass.
  { intros w' (_ & _ & _ & Hsame).
    destruct (new_server_authorizer fuel
                (PState.make w' 4 (PState.calls s0 ++ [Delegate 3])) user)
      as (response & s' & -> & <-);
      [done | lia | simpl; rewrite Hsame; exact Huser | done |].
    exists response, s'. split; [done | apply list_elem_of_here]. }
  destruct (ValidationMiddleware.schemas !! key) as [schema|] eqn:Hschema.
  - destruct (validator_exec _ request schema 3 (next fuel) s0 Hschema)
      as (w' & Hw' & ->).
    destruct (ValidationMiddleware.validateRequest request schema); [by apply Hpass |].
    do 2 eexists. split; [reflexivity |]. simpl.
    apply list_elem_of_further, list_elem_of_here.
  - destruct (validator_open _ request 3 (next fuel) s0 Hschema) as (w' & Hw' & ->).
    by apply Hpass.
Qed.

Lemma new_server_authenticator fuel s :
  PState.index s = 2 → 3 < fuel →
  ∃ response s',
    next fuel s = Some (Ok response, s')
    ∧ Response.status response ∈ [status; 400%Z; 401%Z].
Proof using open_or_both.
  intros Hs Hfuel. destruct fuel as [|fuel]; [lia |].
  unfold next. rewrite next_S, Hs.
  change (HTTPServer.setupMiddleware !! 2) with (Some AuthenticationMiddleware.new).
  cbv iota zeta.
  change (execute AuthenticationMiddleware.new request)
    with (AuthenticationMiddleware.execute request).
  fold (next fuel).
  set (s0 := PState.make (PState.world s) 3 (PState.calls s ++ [Invoke 2])).
  assert (401%Z ∈ [status; 400%Z; 401%Z]) as H401
    by (do 2 apply list_elem_of_further; apply list_elem_of_here).
  destruct (AuthenticationMiddleware.rejects_header
              (Request.headers request !! "authorization")) eqn:Hrej.
  - unfold AuthenticationMiddleware.execute. rewrite Hrej. run_exec.
    do 2 eexists. split; [reflexivity | exact H401].
  - destruct (rejects_header_false _ Hrej) as (h & Hh & Hpre).
    destruct (verifyToken_cases (String.substring 7 (String.length h - 7) h))
      as [[user Hver] | Hver].
    + destruct (authenticator_exec request h user 2 (next fuel) s0 Hh Hpre Hver)
        as (w0 & Huser & _ & _ & _ & ->).
      change (PState.index s0) with 3.
      destruct (new_server_validator fuel
                  (PState.make w0 3 (PState.calls s0 ++ [Delegate 2])) user)
        as (response & s' & -> & Hstatus);
        [done | lia | done | by eapply verifyToken_role |].
      exists response, s'. split; [done |].
      apply elem_of_cons in Hstatus as [-> | Hstatus];
        [apply list_elem_of_here | apply list_elem_of_further].
      apply elem_of_cons in Hstatus as [-> | Hstatus];
        [apply list_elem_of_here | by apply elem_of_nil in Hstatus].
    + unfold AuthenticationMiddleware.execute. rewrite Hrej, Hh. simpl default.
      rewrite Hver. rewrite exec_bind, exec_console_log. cbv beta iota. simpl.
      do 2 eexists. split; [reflexivity | exact H401].
Qed.

Lemma new_server_limiter fuel s :
  PState.index s = 1 → 4 < fuel →
  ∃ response s',
    next fuel s = Some (Ok response, s')
    ∧ Response.status response ∈ [status; 400%Z; 401%Z; 429%Z].
Proof using open_or_both.
  intros Hs Hfuel. destruct fuel as [|fuel]; [lia |].
  unfold next. rewrite next_S, Hs.
  change (HTTPServer.setupMiddleware !! 1) with (Some RateLimitingMiddleware.new).
  cbv iota zeta.
  change (execute RateLimitingMiddleware.new request)
    with (RateLimitingMiddleware.execute request).
  fold (next fuel).
  set (s0 := PState.make (PState.world s) 2 (PState.calls s ++ [Invoke 1])).
  set (valid := inWindow (World.clock (PState.world s0) (World.ticks (PState.world s0)))
                  (storedFor (clientOf request (PState.world s0)) (PState.world s0))).
  destruct (decide (RateLimitingMiddleware.maxRequests ≤ length valid)) as [Hfull | Hroom].
  - destruct (rate_limiter_rejects request 1 (next fuel) s0 Hfull) as (w' & -> & _).
    do 2 eexists. split; [reflexivity |]. simpl.
    do 3 apply list_elem_of_further. apply list_elem_of_here.
  - destruct (rate_limiter_admits request 1 (next fuel) s0) as (w' & -> & _);
      [fold valid; lia |].
    change (PState.index s0) with 2.
    destruct (new_server_authenticator fuel
                (PState.make w' 2 (PState.calls s0 ++ [Delegate 1])))
      as (response & s' & -> & Hstatus); [done | lia |].
    exists response, s'. split; [done |].
    rewrite !elem_of_cons, ?elem_of_nil in Hstatus. rewrite !elem_of_cons. tauto.
Qed.

Lemma new_server_pipeline w :
  ∃ response s',
    MiddlewarePipeline.execute HTTPServer.setupMiddleware request handler w
    = Some (Ok response, s')
    ∧ Response.status response ∈ [status; 400%Z; 401%Z; 429%Z].
Proof using open_or_both.
  unfold MiddlewarePipeline.execute.
  change (length HTTPServer.setupMiddleware) with 5. rewrite next_S.
  change (HTTPServer.setupMiddleware !! PState.index (PState.make w 0 []))
    with (Some LoggingMiddleware.new).
  cbv iota zeta.
  change (execute LoggingMiddleware.new request)
    with (LoggingMiddleware.execute request).
  fold (next 5). simpl_world.
  destruct (logging_exec request 0 (next 5) (PState.make w 1 ([] ++ [Invoke 0])))
    as (w0 & _ & Hlog).
  destruct (new_server_limiter 5
              (PState.make w0 1 (([] ++ [Invoke 0]) ++ [Delegate 0])))
    as (response & s1 & Hnext & Hstatus); [done | lia |].
  destruct (Hlog _ _ Hnext) as (w1 & -> & _). eauto.
Qed.

End NewServer.

(** A server built by [new HTTPServer()] answers every request that
    arrives without a [user], and with one of the statuses 200, 201, 400,
    401, 404 and 429: never with 403, the Authorizer finding an entry for
    [POST /users] only, whose roles are those of both tokens, and never
    with 500. *)
Theorem new_server_statuses (request : Request.t) (w : World.t) :
  World.user w = None →
  ∃ response s,
    HTTPServer.handleRequest HTTPServer.new request w = Some (response, s)
    ∧ Response.status response ∈ [200%Z; 201%Z; 400%Z; 401%Z; 404%Z; 429%Z].
Proof.
  intros _.
  unfold HTTPServer.handleRequest.
  set (key := Request.method request +:+ ":" +:+ Request.path request).
  simpl HTTPServer.routes. simpl HTTPServer.pipeline.
  unfold HTTPServer.setupRoutes. rewrite !lookup_insert.
  repeat case_decide.
  4: { rewrite lookup_empty. do 2 eexists. split; [reflexivity |]. simpl.
       rewrite !elem_of_cons. tauto. }
  all: match goal with
       | |- context [MiddlewarePipeline.execute _ _ (HTTPServer.respond ?st ?b) _] =>
           destruct (new_server_pipeline request st b) with (w := w)
             as (response & s' & -> & Hstatus)
       end.
  all: try (exists response, s'; split; [reflexivity |];
            rewrite !elem_of_cons, ?elem_of_nil in Hstatus; rewrite !elem_of_cons; tauto).
  all: match goal with H : _ = ?k |- _ => fold k; rewrite <- H end;
    vm_compute; auto.
Qed.

(** The guarantee of the sliding window. Under a clock that does not run
    backwards, of the requests of one client that the limiter admits, any
    [maxRequests + 1] successive ones are recorded at least [windowMs]
    apart: no client gets more than [maxRequests] requests through within
    a window, however its requests are interleaved with those of others. *)
Theorem sliding_window_guarantee (w : World.t) (history : gmap string (list Z))
    (client : string) (admitted : list Z) (j : nat) (first last : Z) :
  limiter_history w history →
  (∀ k, (World.clock w k ≤ World.clock w (S k))%Z) →
  history !! client = Some admitted →
  admitted !! j = Some first →
  admitted !! (j + RateLimitingMiddleware.maxRequests) = Some last →
  (RateLimitingMiddleware.windowMs ≤ last - first)%Z.
Proof.
  intros Hrun Hclock Hclient Hfirst Hlast.
  destruct (limiter_history_clock w history Hrun Hclock client)
    as (_ & _ & _ & _ & _ & Hspaced).
  rewrite Hclient in Hspaced. by eapply Hspaced.
Qed.

Lemma sliding_window_guarantee_witness :
  limiter_history
    (PState.world (repeated forwardedRequest 11 (start sixSecondClock) ∅).1)
    (repeated forwardedRequest 11 (start sixSecondClock) ∅).2
  ∧ (repeated forwardedRequest 11 (start sixSecondClock) ∅).2 !! "10.0.0.7"
    = Some [6000; 18000; 30000; 42000; 54000; 66000; 78000; 90000; 102000;
            114000; 126000]%Z
  ∧ (RateLimitingMiddleware.windowMs ≤ 126000 - 6000)%Z.
Proof.
  pose proof (repeated_history forwardedRequest 11 (start sixSecondClock) ∅
                (history_start _ _)) as Hrun.
  assert ((repeated forwardedRequest 11 (start sixSecondClock) ∅).2 !! "10.0.0.7"
          = Some [6000; 18000; 30000; 42000; 54000; 66000; 78000; 90000; 102000;
                  114000; 126000]%Z) as Hclient by (vm_compute; reflexivity).
  split; [exact Hrun |]. split; [exact Hclient |].
  refine (sliding_window_guarantee _ _ "10.0.0.7" _ 0 6000 126000 Hrun _
            Hclient _ _).
  - assert (World.clock
              (PState.world (repeated forwardedRequest 11 (start sixSecondClock) ∅).1)
            = fun n => (6000 * Z.of_nat n)%Z) as -> by (vm_compute; reflexivity).
    intros k. lia.
  - reflexivity.
  - reflexivity.
Defined.

(** The limiter keeps its clients apart: an execution changes the stored
    timestamps of the client of its request only, whether it answers 429
    or calls its continuation, so that the requests of one client never
    count against another. *)
Theorem limiter_isolates_clients (request : Request.t) (i : nat)
    (next : Continuation) (s : PState.t) :
  ∃ w',
    (exec i (RateLimitingMiddleware.execute request) next s
     = Some (Ok (Response.make 429 (JObject [("error", JString "Rate limit exceeded")])
                   (Some {["Retry-After" := "60"]})),
             PState.make w' (PState.index s) (PState.calls s))
     ∨ exec i (RateLimitingMiddleware.execute request) next s
       = next (PState.make w' (PState.index s) (PState.calls s ++ [Delegate i])))
    ∧ World.user w' = World.user (PState.world s)
    ∧ ∀ other, other ≠ clientOf request (PState.world s) →
        storedFor other w' = storedFor other (PState.world s).
Proof.
  set (valid := inWindow (World.clock (PState.world s) (World.ticks (PState.world s)))
                  (storedFor (clientOf request (PState.world s)) (PState.world s))).
  destruct (decide (RateLimitingMiddleware.maxRequests ≤ length valid)) as [Hfull | Hroom].
  - destruct (rate_limiter_rejects request i next s Hfull)
      as (w' & Hexec & Hreq & _ & _ & Huser).
    exists w'. split; [by left |]. split; [done |].
    intros other Hother. unfold storedFor. by rewrite Hreq, lookup_insert_ne.
  - assert (length valid < RateLimitingMiddleware.maxRequests) as Hlt by lia.
    destruct (rate_limiter_admits request i next s Hlt)
      as (w' & Hexec & Hreq & _ & _ & Huser).
    exists w'. split; [by right |]. split; [done |].
    intros other Hother. unfold storedFor. by rewrite Hreq, lookup_insert_ne.
Qed.

(** ** The further properties at concrete inputs *)

Lemma logging_is_transparent_witness :
  ∃ s', exec 0 (LoggingMiddleware.execute validRequest) finish (start justBuilt)
        = Some (Ok (Response.make 204 JNull None), s').
Proof.
  destruct (logging_is_transparent validRequest 0 finish (start justBuilt))
    as (w0 & _ & Hrun).
  destruct (Hrun _ _ eq_refl) as (w1 & Hexec & _).
  eexists. exact Hexec.
Defined.

Lemma authenticator_attaches_identity_witness :
  ∃ s', exec 2 (AuthenticationMiddleware.execute validRequest) finish
          (start justBuilt)
        = Some (Ok (Response.make 204 JNull None), s')
        ∧ World.user (PState.world s')
          = Some (Identity.make "user123" "user@example.com" "user").
Proof.
  destruct (authenticator_attaches_identity validRequest "Bearer valid-token"
              (Identity.make "user123" "user@example.com" "user") 2 finish
              (start justBuilt))
    as (_ & w0 & Huser & _ & Hrun); [reflexivity.. |].
  eexists. split; [apply Hrun; reflexivity | exact Huser].
Defined.

Lemma authenticator_masks_errors_witness :
  ∃ s', exec 2 (AuthenticationMiddleware.execute validRequest)
          (fails "connection lost") (start justBuilt)
        = Some (Ok (Response.make 401
                      (JObject [("error", JString "Invalid token")]) None), s').
Proof.
  destruct (authenticator_masks_errors validRequest "Bearer valid-token"
              (Identity.make "user123" "user@example.com" "user") 2
              (fails "connection lost") (start justBuilt))
    as (w0 & _ & Hrun); [reflexivity.. |].
  eexists. apply (Hrun {| message := "connection lost" |}). reflexivity.
Defined.

Lemma authorizer_decides_witness :
  ∃ s', exec 4 (AuthorizationMiddleware.execute AuthorizationMiddleware.permissions
                  validRequest) finish (start justBuilt)
        = Some (Ok (Response.make 401
                      (JObject [("error", JString "Authentication required")])
                      None), s').
Proof.
  destruct (authorizer_decides AuthorizationMiddleware.permissions validRequest
              ["user"; "admin"] 4 finish (start justBuilt))
    as (w' & _ & Hexec); [reflexivity |].
  eexists. exact Hexec.
Defined.

Lemma client_id_never_empty_witness :
  exec 1 (RateLimitingMiddleware.getClientId forwardedRequest) stop
    (start justBuilt)
  = Some (Ok "10.0.0.7", start justBuilt).
Proof.
  destruct (client_id_never_empty forwardedRequest 1 stop (start justBuilt))
    as (client & Hexec & _ & _ & Hanonymous).
  destruct Hanonymous as [Hforwarded _]; [left; reflexivity |].
  rewrite <- (Hforwarded "10.0.0.7" eq_refl ltac:(discriminate)).
  exact Hexec.
Defined.

Lemma undeclared_fields_ignored_witness :
  ValidationMiddleware.validateRequest extraFieldRequest
    (Schema.make (Some postUsersEntries))
  = ValidationMiddleware.validateRequest validRequest
      (Schema.make (Some postUsersEntries)).
Proof.
  apply undeclared_fields_ignored.
  intros entries field rules [= <-] Hin. unfold postUsersEntries in Hin.
  repeat (apply elem_of_cons in Hin as [[= -> ->] | Hin]); try reflexivity.
  by apply elem_of_nil in Hin.
Defined.

Lemma missing_body_reports_required_fields_witness :
  ValidationMiddleware.validateRequest noHeaderRequest
    (Schema.make (Some postUsersEntries))
  = ["email is required"; "name is required"].
Proof.
  exact (missing_body_reports_required_fields noHeaderRequest postUsersEntries
           (fun _ _ _ => eq_refl)).
Defined.

Lemma isValidEmail_shape_witness :
  email_shaped (String.list_ascii_of_string "test@example.com").
Proof.
  apply (isValidEmail_shape "test@example.com"); reflexivity.
Defined.

Lemma server_pipeline_never_throws_witness :
  ∃ response s,
    HTTPServer.handleRequest
      (HTTPServer.make HTTPServer.setupMiddleware
         {["POST:/users" := crashes "database unavailable"]})
      validRequest justBuilt
    = Some (response, s).
Proof.
  destruct (server_pipeline_never_throws validRequest
              (crashes "database unavailable")
              {["POST:/users" := crashes "database unavailable"]} justBuilt)
    as (_ & Hserver); [reflexivity |].
  destruct Hserver as (response & s & _ & Hhandle); [reflexivity |].
  exists response, s. exact Hhandle.
Defined.

Lemma new_server_statuses_witness :
  ∃ response s,
    HTTPServer.handleRequest HTTPServer.new validRequest justBuilt
    = Some (response, s)
    ∧ Response.status response ∈ [200%Z; 201%Z; 400%Z; 401%Z; 404%Z; 429%Z].
Proof. apply new_server_statuses. reflexivity. Defined.
